(** * Retrieval pipeline of the RAG agent ([app.py])

    A shallow embedding of the document synchroniser ([load_files_to_db],
    lines 27-63) and of the chat handler (lines 81-137), followed by the
    properties of chunking, indexing and context assembly.

    Python values are modelled as follows.
    - [str] is a sequence of Unicode code points: [list N].  [len] is
      [length], slicing is [take]/[drop], [+] is [++].
    - The Chroma collection is a finite map from chunk id to the stored
      document and its metadata: [gmap (list N) (list N * metadata)].
    - Side effects (the sidebar, the collection, the chat history, the
      completion service) are threaded through a state monad over [world].
    - What the file system and the PDF library answer is part of the input:
      every directory entry carries the outcome of reading it. *)

From stdpp Require Import gmap strings list pretty.
From Stdlib Require Import Lia Ascii.

(** ** Python strings *)

Abbreviation str := (list N) (only parsing).

(** The bytes of a literal of this file. *)
Definition bytes_of (s : string) : list N :=
  (λ a, Ascii.N_of_ascii a) <$> String.list_ascii_of_string s.

(** UTF-8 decoding, used to read the literals of [app.py] (which contain
    Korean text and emoji) as code point sequences.  It is only applied to
    the well-formed literals below. *)
Fixpoint utf8_decode (bs : list N) : list N :=
  match bs with
  | [] => []
  | b0 :: r0 =>
    if (b0 <? 0x80)%N then b0 :: utf8_decode r0
    else match r0 with
    | [] => [b0]
    | b1 :: r1 =>
      if (b0 <? 0xE0)%N then
        ((b0 - 0xC0) * 0x40 + (b1 - 0x80))%N :: utf8_decode r1
      else match r1 with
      | [] => [b0; b1]
      | b2 :: r2 =>
        if (b0 <? 0xF0)%N then
          ((b0 - 0xE0) * 0x1000 + (b1 - 0x80) * 0x40 + (b2 - 0x80))%N
            :: utf8_decode r2
        else match r2 with
        | [] => [b0; b1; b2]
        | b3 :: r3 =>
          ((b0 - 0xF0) * 0x40000 + (b1 - 0x80) * 0x1000
             + (b2 - 0x80) * 0x40 + (b3 - 0x80))%N :: utf8_decode r3
        end
      end
    end
  end.

Definition lit (s : string) : list N := utf8_decode (bytes_of s).

(** Number of bytes UTF-8 (the encoding named on line 40) uses for a code
    point, and the byte offset at which character [i] of a text starts. *)
Definition utf8_width (c : N) : nat :=
  if (c <? 0x80)%N then 1
  else if (c <? 0x800)%N then 2
  else if (c <? 0x10000)%N then 3
  else 4.

Definition byte_offset (s : str) (i : nat) : nat :=
  sum_list (utf8_width <$> take i s).

(** [str(i)] for a non-negative integer: its decimal digits. *)
Definition str_of_nat (i : nat) : str := lit (pretty i).

(** [s[i:j]] for [0 <= i]: indices beyond the end are clamped. *)
Definition slice (s : str) (i j : nat) : str := take (j - i) (drop i s).

(** [s.endswith(suffix)] *)
Definition endswith (s suffix : str) : bool :=
  bool_decide (suffix `suffix_of` s).

(** Truth value of a string: the empty string is falsy. *)
Definition truthy (s : str) : bool :=
  match s with [] => false | _ :: _ => true end.

(** [sep.join(parts)] *)
Fixpoint join (sep : str) (parts : list str) : str :=
  match parts with
  | [] => []
  | [p] => p
  | p :: rest => p ++ sep ++ join sep rest
  end.

(** [range(start, stop, step)] for [step > 0]: the loop counter starts at
    [start] and advances by [step] while it is below [stop].  (Python raises
    [ValueError] for [step = 0]; the only call site uses [step = 650].)
    [stop - start] iterations are always enough. *)
Fixpoint range_go (fuel i stop step : nat) : list nat :=
  match fuel with
  | 0 => []
  | S fuel' =>
    if decide (i < stop) then i :: range_go fuel' (i + step) stop step else []
  end.

Definition range (start stop step : nat) : list nat :=
  range_go (stop - start) start stop step.

(** ** The chunker (lines 31-32 and 55-57) *)

Definition chunk_size : nat := 800.
Definition overlap : nat := 150.

(** Line 55: the offsets visited by the loop. *)
Definition chunk_offsets (content : str) : list nat :=
  range 0 (length content) (chunk_size - overlap).

(** Line 56: [chunk = content[i : i + chunk_size]]. *)
Definition chunk_at (content : str) (i : nat) : str :=
  slice content i (i + chunk_size).

(** Line 57: [chunk_id = f"{filename}_part_{i}"]. *)
Definition chunk_id (filename : str) (i : nat) : str :=
  filename ++ lit "_part_" ++ str_of_nat i.

(** The character range [[start, stop)] of the chunk taken at offset [i],
    and the number of positions two ranges share. *)
Definition chunk_range (content : str) (i : nat) : nat * nat :=
  (i, i + length (chunk_at content i)).

Definition range_overlap (r1 r2 : nat * nat) : nat :=
  (r1.2 `min` r2.2) - (r1.1 `max` r2.1).

(** Ceiling of a quotient, and the count formula as the specification
    words it: [ceil(max(L - overlap, 0) / (chunk_size - overlap))] for
    [L > 0], else [0]. *)
Definition ceil_div (a b : nat) : nat := (a + b - 1) / b.

Definition spec_chunk_count (L : nat) : nat :=
  if decide (0 < L) then ceil_div (L - overlap) (chunk_size - overlap) else 0.

(** ** The world the program runs in *)

(** Chunk metadata: the dictionary [{"source": filename}]. *)
Record metadata := Metadata { source : str }.

(** Outcome of a call into the file system or the PDF library: a value, or
    an exception (kept as its message, [str(e)]). *)
Inductive io (A : Type) : Type :=
  | Ok (a : A)
  | Raise (e : str).
Arguments Ok {A} a.
Arguments Raise {A} e.

(** A directory entry as [os.listdir] names it, with what the readers
    answer on it: [read_text] is the outcome of [open(path, "r",
    encoding="utf-8")] followed by [f.read()]; [read_pdf] is the outcome of
    [PdfReader(path)], and for an opened document the outcome of
    [page.extract_text()] on each page, in order. *)
Record dirent := Dirent {
  name : str;
  read_text : io str;
  read_pdf : io (list (io str))
}.

Inductive role := User | Assistant.

(** Arguments of [chat.completions.create]. *)
Record request := Request {
  req_messages : list (role * str);
  req_model : str;
  req_temperature : QArith_base.Q
}.

(** One call of [collection.upsert]: id, document, metadata. *)
Record upsert_call := UpsertCall {
  call_id : str;
  call_document : str;
  call_metadata : metadata
}.

Record world := World {
  (** the entries of [./data], or [None] when the directory is absent *)
  data_dir : option (list dirent);
  (** the Chroma collection [advanced_tech_notes] *)
  collection : gmap (list N) (list N * metadata);
  (** trace of the [collection.upsert] calls made so far *)
  upsert_log : list upsert_call;
  (** messages shown by [st.sidebar.error] *)
  sidebar_errors : list (list N);
  (** [st.session_state.messages] *)
  messages : list (role * list N);
  (** trace of the requests sent to the completion service *)
  groq_log : list request
}.

(** State monad over [world]. *)
Definition M (A : Type) : Type := world → A * world.

#[global] Instance M_ret : MRet M := λ A a w, (a, w).
#[global] Instance M_bind : MBind M := λ A B f m w,
  let '(a, w') := m w in f a w'.

Definition run {A} (m : M A) (w : world) : A * world := m w.
Definition exec {A} (m : M A) (w : world) : world := (m w).2.

(** [for x in xs: body(x)] *)
Fixpoint for_each {A} (xs : list A) (body : A → M unit) : M unit :=
  match xs with
  | [] => mret tt
  | x :: rest => body x ;; for_each rest body
  end.

(** *** Primitive effects *)

(** Lines 28-29: create the directory when it does not exist. *)
Definition ensure_directory : M unit := λ w,
  (tt, match data_dir w with
       | Some _ => w
       | None => World (Some []) (collection w) (upsert_log w)
                       (sidebar_errors w) (messages w) (groq_log w)
       end).

(** [os.listdir(directory)] *)
Definition listdir : M (list dirent) := λ w, (default [] (data_dir w), w).

(** [st.sidebar.error(msg)] *)
Definition sidebar_error (msg : str) : M unit := λ w,
  (tt, World (data_dir w) (collection w) (upsert_log w)
             (sidebar_errors w ++ [msg]) (messages w) (groq_log w)).

(** [collection.upsert(documents=[doc], metadatas=[meta], ids=[id])]:
    insert or overwrite the entry stored under [id]. *)
Definition upsert (doc : str) (meta : metadata) (id : str) : M unit := λ w,
  (tt, World (data_dir w) (<[id := (doc, meta)]> (collection w))
             (upsert_log w ++ [UpsertCall id doc meta])
             (sidebar_errors w) (messages w) (groq_log w)).

(** [st.session_state.messages.append({"role": r, "content": c})] *)
Definition append_message (r : role) (c : str) : M unit := λ w,
  (tt, World (data_dir w) (collection w) (upsert_log w)
             (sidebar_errors w) (messages w ++ [(r, c)]) (groq_log w)).

(** [groq_client.chat.completions.create(...)]: the request is sent and
    the service's answer [llm req] comes back. *)
Definition complete (llm : request → str) (req : request) : M str := λ w,
  (llm req, World (data_dir w) (collection w) (upsert_log w)
                  (sidebar_errors w) (messages w) (groq_log w ++ [req])).

(** ** The synchroniser: [load_files_to_db] (lines 27-63) *)

Definition nl : str := [10%N].
Definition dq : str := [34%N].

(** Lines 47-49: the page loop inside the [try] block.  [content] is the
    text gathered so far; the loop stops at the first page whose
    extraction raises, handing the exception to the [except] clause. *)
Fixpoint pdf_pages_loop (pages : list (io str)) (content : str)
    : str * option str :=
  match pages with
  | [] => (content, None)
  | Raise e :: _ => (content, Some e)
  | Ok text :: rest =>
    pdf_pages_loop rest (if truthy text then content ++ text ++ nl else content)
  end.

(** Lines 36-51: the text extracted from one directory entry. *)
Definition extract_content (f : dirent) : M str :=
  if endswith (name f) (lit ".txt") then
    match read_text f with
    | Ok content => mret content
    | Raise e =>
      sidebar_error (name f ++ lit " 읽기 실패: " ++ e) ;; mret []
    end
  else if endswith (name f) (lit ".pdf") then
    match read_pdf f with
    | Raise e =>
      sidebar_error (name f ++ lit " PDF 읽기 실패: " ++ e) ;; mret []
    | Ok pages =>
      let '(content, raised) := pdf_pages_loop pages [] in
      match raised with
      | Some e =>
        sidebar_error (name f ++ lit " PDF 읽기 실패: " ++ e) ;; mret content
      | None => mret content
      end
    end
  else mret [].

(** Lines 55-62: chunk the text and upsert every chunk. *)
Definition index_chunks (filename content : str) : M unit :=
  for_each (chunk_offsets content) (λ i,
    upsert (chunk_at content i) (Metadata filename) (chunk_id filename i)).

(** Lines 35-62: the body of the loop over the directory. *)
Definition sync_file (f : dirent) : M unit :=
  content ← extract_content f;
  if truthy content then index_chunks (name f) content else mret tt.

Definition sync_status : str := lit "✨ 모든 로컬 문서(PDF/TXT) 동기화 완료!".

Definition load_files_to_db : M str :=
  ensure_directory ;;
  entries ← listdir;
  for_each entries sync_file ;;
  mret sync_status.

(** ** The chat handler (lines 81-137) *)

(** Line 99: one labelled block per retrieved chunk. *)
Definition format_context (doc : str) (meta : metadata) : str :=
  lit "[" ++ source meta ++ lit "]: " ++ doc.

(** Lines 97-102: the context text and the cited sources.
    [list(set(...))] keeps one copy of every source name, in an order the
    language does not fix; it is modelled by the elements of a finite set. *)
Definition build_context (contexts : list str) (metadatas : list metadata)
    : str * list str :=
  let formatted_contexts :=
    (λ dm, format_context dm.1 dm.2) <$> zip contexts metadatas in
  let context_text := join (nl ++ nl) formatted_contexts in
  let sources :=
    elements (list_to_set (source <$> metadatas) : gset (list N)) in
  (context_text, sources).

(** Line 115, the third instruction of the prompt: decline when the
    references hold nothing relevant. *)
Definition decline_instruction : str :=
  lit "3. [참고 문헌]에 질문과 관련된 내용이 없으면 " ++ dq
  ++ lit "제공된 문서 내에서 관련 정보를 찾을 수 없습니다" ++ dq
  ++ lit "라고 정중히 답해.".

Definition indent : str := replicate 12 32%N.

(** Lines 105-123: the prompt, an f-string over [context_text] and
    [query], given line by line. *)
Definition build_prompt (context_text query : str) : str :=
  join nl [
    [];
    indent ++ lit "너는 전문 지식 비서야. [참고 문헌]을 바탕으로 질문에 답해줘.";
    indent ++ lit "IT 지식을 모두 활용하고, 반드시 출처를 밝혀줘.";
    indent ++ lit "그리고 너의 의견으로 하지말고 반드시 data폴더 안의 txt, pdf 파일 기반으로 답변을 해줘";
    indent ++ lit "그리고 반드시 출처를 밝혀줘 어떤 txt, pdf 파일을 참고했는지를 말해줘";
    indent ++ lit "답변에는 한자가 나오지 않도록 해주십시오.";
    [];
    indent ++ lit "[지시 사항]:";
    indent ++ lit "1. 너의 주관적인 의견은 배제하고, 반드시 제공된 [참고 문헌]의 내용을 기반으로 답변해.";
    indent ++ lit "2. 답변 과정에서 어떤 파일(txt, pdf)을 참고했는지 명확히 언급해.";
    indent ++ decline_instruction;
    [];
    indent ++ lit "[참고 문헌]:";
    indent ++ context_text;
    [];
    indent ++ lit "[질문]: " ++ query;
    [];
    indent ++ lit "답변:";
    indent
  ].

Definition groq_model : str := lit "llama-3.3-70b-versatile".
Definition groq_temperature : QArith_base.Q := QArith_base.Qmake 1 10.

(** Line 133: the citation footer. *)
Definition source_links (sources : list str) : str :=
  nl ++ nl ++ lit "---" ++ nl ++ lit "**📍 참고된 파일들:** "
  ++ join (lit ", ") sources.

(** [collection.query(query_texts=[query], n_results=n)]: the ranking by
    embedding similarity is the index store's business; [search] stands
    for it and returns [results['documents'][0]] and
    [results['metadatas'][0]]. *)
Definition query_collection
    (search : gmap (list N) (list N * metadata) → str → nat
              → list str * list metadata)
    (query : str) (n_results : nat) : M (list str * list metadata) :=
  λ w, (search (collection w) query n_results, w).

(** Lines 81-137: one chat turn.  Nothing happens for an empty input. *)
Definition chat_turn
    (search : gmap (list N) (list N * metadata) → str → nat
              → list str * list metadata)
    (llm : request → str) (query : str) : M unit :=
  if truthy query then
    append_message User query ;;
    results ← query_collection search query 3;
    let contexts := results.1 in
    let metadatas := results.2 in
    let '(context_text, sources) := build_context contexts metadatas in
    let prompt := build_prompt context_text query in
    response ← complete llm
      (Request [(User, prompt)] groq_model groq_temperature);
    let full_response := response ++ source_links sources in
    append_message Assistant full_response
  else mret tt.

(** The calls of [collection.upsert] that the chunk loop makes for one
    file, in order (shown below to be what the loop appends to the log). *)
Definition chunk_calls (filename content : str) : list upsert_call :=
  (λ i, UpsertCall (chunk_id filename i) (chunk_at content i)
                   (Metadata filename)) <$> chunk_offsets content.

(** The effect of a sequence of upsert calls on a collection. *)
Definition apply_calls (calls : list upsert_call)
    (c : gmap (list N) (list N * metadata)) : gmap (list N) (list N * metadata) :=
  foldl (λ m call, <[call_id call := (call_document call, call_metadata call)]> m)
        c calls.

(** A world in which nothing has happened yet. *)
Definition empty_world : world := World None ∅ [] [] [] [].

(** The text [extract_content] returns for an entry and the errors it
    reports; neither depends on the world it runs in (see
    [extract_content_run]). *)
Definition extracted_text (f : dirent) : str :=
  (extract_content f empty_world).1.

Definition reported_errors (f : dirent) : list str :=
  sidebar_errors (extract_content f empty_world).2.

(** The upsert calls made for one entry, and for a whole listing. *)
Definition file_calls (f : dirent) : list upsert_call :=
  if truthy (extracted_text f)
  then chunk_calls (name f) (extracted_text f) else [].

Definition dir_calls (entries : list dirent) : list upsert_call :=
  entries ≫= file_calls.

(** Decimal digits, as code points. *)
Definition digit (c : N) : Prop := (48 ≤ c ≤ 57)%N.

(** The same world with another listing of the directory. *)
Definition with_listing (entries : list dirent) (w : world) : world :=
  World (Some entries) (collection w) (upsert_log w) (sidebar_errors w)
        (messages w) (groq_log w).

(** ** Sample inputs *)

(** A text of 2000 characters, the content of [notes.txt] in the
    specification's scenario. *)
Definition text_2000 : str := replicate 2000 97%N.

(** [notes.txt] holding that text. *)
Definition notes_txt : dirent :=
  Dirent (lit "notes.txt") (Ok text_2000) (Raise (lit "not a PDF")).

(** A world whose directory holds [notes.txt] only, while the collection
    still has a chunk of a file [gone.txt] that was removed and a chunk of
    [notes.txt] at offset 2600, from a time when that file was longer. *)
Definition stale_world : world :=
  World (Some [notes_txt])
        (<[chunk_id (lit "notes.txt") 2600 := (lit "tail", Metadata (lit "notes.txt"))]>
           {[chunk_id (lit "gone.txt") 0 := (lit "old", Metadata (lit "gone.txt"))]})
        [] [] [] [].

(** [ko.txt]: 651 Hangul syllables (U+AC00), three bytes each in UTF-8. *)
Definition ko_txt : dirent :=
  Dirent (lit "ko.txt") (Ok (replicate 651 0xAC00%N)) (Raise (lit "not a PDF")).

(** [broken.txt]: a text file that cannot be read. *)
Definition broken_txt : dirent :=
  Dirent (lit "broken.txt") (Raise (lit "Permission denied"))
         (Raise (lit "not a PDF")).

(** [scan.pdf]: two pages, neither of which yields any text. *)
Definition scan_pdf : dirent :=
  Dirent (lit "scan.pdf") (Raise (lit "invalid start byte")) (Ok [Ok []; Ok []]).

(** [guide.pdf]: the first page yields the text [abc], the extraction of
    the second page raises. *)
Definition torn_pdf : dirent :=
  Dirent (lit "guide.pdf") (Raise (lit "invalid start byte"))
         (Ok [Ok (lit "abc"); Raise (lit "broken page")]).

(** A directory with [guide.pdf] followed by [notes.txt], nothing indexed. *)
Definition torn_world : world :=
  World (Some [torn_pdf; notes_txt]) ∅ [] [] [] [].

(** The PDF of the specification's scenario: two pages with 500 characters
    of text each. *)
Definition scenario_pdf : dirent :=
  Dirent (lit "guide.pdf") (Raise (lit "invalid start byte"))
         (Ok [Ok (replicate 500 98%N); Ok (replicate 500 99%N)]).

(** The metadata of the specification's example result set, with sources
    [a.txt], [a.txt], [b.pdf]. *)
Definition sample_metadatas : list metadata :=
  [Metadata (lit "a.txt"); Metadata (lit "a.txt"); Metadata (lit "b.pdf")].

(** An index search that finds nothing, and a completion service that
    always gives the same answer. *)
Definition search_nothing
    (c : gmap (list N) (list N * metadata)) (query : str) (n : nat)
    : list str * list metadata := ([], []).

Definition llm_fixed (req : request) : str := lit "ok".

(** ** The script as a whole (lines 66-137) *)

(** What one run of the script puts on the page: the success box of the
    sidebar, if any, and the chat messages in the order they are drawn. *)
Record page := Page {
  sidebar_success : option str;
  chat_view : list (role * list N)
}.

(** Lines 66-69: the synchronisation button.  [clicked] is what
    [st.sidebar.button] returns; the message returned by the pass is shown
    with [st.sidebar.success]. *)
Definition sync_button (clicked : bool) : M (option str) :=
  if clicked then msg ← load_files_to_db; mret (Some msg) else mret None.

(** Lines 72-78: the stored conversation is drawn, oldest message first.
    (A session without a [messages] key gets the empty list, which is how
    a fresh [world] starts.) *)
Definition render_history : M (list (role * list N)) := λ w, (messages w, w).

(** Lines 81-137 together with what they draw (lines 83-84 and 136).
    [chat_input] is what [st.chat_input] returns: [None] when nothing was
    submitted. *)
Definition chat_handler
    (search : gmap (list N) (list N * metadata) → str → nat
              → list str * list metadata)
    (llm : request → str) (chat_input : option str)
    : M (list (role * list N)) :=
  match chat_input with
  | None => mret []
  | Some query =>
    if truthy query then
      append_message User query ;;
      results ← query_collection search query 3;
      let contexts := results.1 in
      let metadatas := results.2 in
      let '(context_text, sources) := build_context contexts metadatas in
      let prompt := build_prompt context_text query in
      response ← complete llm
        (Request [(User, prompt)] groq_model groq_temperature);
      let full_response := response ++ source_links sources in
      append_message Assistant full_response ;;
      mret [(User, query); (Assistant, full_response)]
    else mret []
  end.

(** One run of the script, top to bottom. *)
Definition script_run
    (search : gmap (list N) (list N * metadata) → str → nat
              → list str * list metadata)
    (llm : request → str) (clicked : bool) (chat_input : option str)
    : M page :=
  success ← sync_button clicked;
  history ← render_history;
  shown ← chat_handler search llm chat_input;
  mret (Page success (history ++ shown)).

(** ** Stored entries *)

#[global] Instance metadata_eq_dec : EqDecision metadata.
Proof. solve_decision. Defined.

(** An entry as the synchroniser writes it: the id is the source name
    followed by ["_part_"] and a multiple of 650, and the document is a
    non-empty text of at most [chunk_size] characters. *)
Definition chunk_entry (id : str) (e : list N * metadata) : Prop :=
  (∃ k, id = chunk_id (source e.2) (k * (chunk_size - overlap)))
  ∧ e.1 ≠ [] ∧ length e.1 ≤ chunk_size.

(** The stored (document, metadata) pairs of a collection. *)
Definition stored (c : gmap (list N) (list N * metadata))
    : list (list N * metadata) :=
  (map_to_list c).*2.

(** ** More sample inputs *)

(** [readme.md]: an entry with an extension the synchroniser ignores. *)
Definition readme_md : dirent :=
  Dirent (lit "readme.md") (Ok (lit "hello")) (Raise (lit "not a PDF")).

(** A short text file, and a world that lists it next to [notes.txt]. *)
Definition memo_txt : dirent :=
  Dirent (lit "memo.txt") (Ok (lit "buy milk")) (Raise (lit "not a PDF")).

Definition fresh_world : world :=
  World (Some [memo_txt; notes_txt]) ∅ [] [] [] [].

(** A PDF that cannot be opened. *)
Definition locked_pdf : dirent :=
  Dirent (lit "locked.pdf") (Raise (lit "invalid start byte"))
         (Raise (lit "file has not been decrypted")).

(** A world without the data directory. *)
Definition bare_world : world :=
  World None {[chunk_id (lit "gone.txt") 0 := (lit "old", Metadata (lit "gone.txt"))]}
        [] [] [(User, lit "hi")] [].

(** An index search that returns the first [n] stored entries. *)
Definition search_first
    (c : gmap (list N) (list N * metadata)) (query : str) (n : nat)
    : list str * list metadata :=
  (fst <$> take n (stored c), snd <$> take n (stored c)).

(** * Properties *)

(** Literals are kept folded during simplification. *)
Arguments lit : simpl never.
Arguments str_of_nat : simpl never.
Arguments chunk_id : simpl never.
Arguments sync_status : simpl never.
Arguments decline_instruction : simpl never.
Arguments build_prompt : simpl never.
Arguments source_links : simpl never.
Arguments groq_model : simpl never.

(** ** [range] and the chunk offsets *)

Lemma range_go_lookup fuel i stop step k x :
  0 < step → stop - i ≤ fuel →
  range_go fuel i stop step !! k = Some x ↔ x = i + k * step ∧ x < stop.
Proof.
  intros Hstep. revert i k.
  induction fuel as [|fuel IH]; intros i k Hfuel; simpl.
  - rewrite lookup_nil. split; [done|]. intros [-> ?]. lia.
  - destruct (decide (i < stop)) as [Hlt|Hge].
    + destruct k as [|k]; simpl.
      * split; [intros [= <-]; lia | intros [-> _]; f_equal; lia].
      * rewrite IH by lia. split; intros [-> ?]; split; lia.
    + rewrite lookup_nil. split; [done|]. intros [-> ?]. lia.
Qed.

Lemma range_lookup start stop step k x :
  0 < step →
  range start stop step !! k = Some x ↔ x = start + k * step ∧ x < stop.
Proof. intros. unfold range. by apply range_go_lookup. Qed.

Lemma ceil_div_gt a b k : 0 < b → k < ceil_div a b ↔ k * b < a.
Proof.
  intros Hb. unfold ceil_div. split; intros H.
  - destruct (decide (k * b < a)) as [|Hn]; [done|]. exfalso.
    assert ((a + b - 1) / b < S k); [|lia].
    apply Nat.Div0.div_lt_upper_bound. lia.
  - assert (S k ≤ (a + b - 1) / b); [|lia].
    apply Nat.div_le_lower_bound; lia.
Qed.

Lemma length_by_lookup {A} (l : list A) n :
  (∀ k, is_Some (l !! k) ↔ k < n) → length l = n.
Proof.
  intros H.
  destruct (Nat.lt_trichotomy (length l) n) as [Hlt|[Heq|Hgt]]; [|done|].
  - apply H, lookup_lt_is_Some in Hlt. lia.
  - apply lookup_lt_is_Some, H in Hgt. lia.
Qed.

Lemma range_length start stop step :
  0 < step → length (range start stop step) = ceil_div (stop - start) step.
Proof.
  intros Hstep. apply length_by_lookup. intros k.
  rewrite ceil_div_gt by done. split.
  - intros [x Hx]. apply range_lookup in Hx as [-> ?]; lia.
  - intros Hk. exists (start + k * step). apply range_lookup; lia.
Qed.

Lemma chunk_offsets_lookup content k i :
  chunk_offsets content !! k = Some i ↔ i = k * 650 ∧ i < length content.
Proof.
  unfold chunk_offsets, chunk_size, overlap.
  rewrite range_lookup by lia. simpl. split; intros [-> ?]; split; lia.
Qed.

Lemma chunk_offsets_elem content i :
  i ∈ chunk_offsets content ↔ (∃ k, i = k * 650) ∧ i < length content.
Proof.
  rewrite list_elem_of_lookup. split.
  - intros [k [-> ?]%chunk_offsets_lookup]. eauto.
  - intros [[k ->] ?]. exists k. by apply chunk_offsets_lookup.
Qed.

Lemma chunk_offsets_length content :
  length (chunk_offsets content) = ceil_div (length content) 650.
Proof.
  unfold chunk_offsets, chunk_size, overlap.
  rewrite range_length by lia. f_equal; lia.
Qed.

Lemma chunk_at_length content i :
  length (chunk_at content i) = chunk_size `min` (length content - i).
Proof.
  unfold chunk_at, slice. rewrite length_take, length_drop.
  replace (i + chunk_size - i) with chunk_size by lia. done.
Qed.

Lemma chunk_at_lookup content i p :
  i ≤ p < i + chunk_size → chunk_at content i !! (p - i) = content !! p.
Proof.
  intros Hp. unfold chunk_at, slice.
  rewrite lookup_take_lt by lia. rewrite lookup_drop. f_equal. lia.
Qed.

(** ** What the synchroniser does to the world *)

Lemma apply_calls_snoc calls call c :
  apply_calls (calls ++ [call]) c
  = <[call_id call := (call_document call, call_metadata call)]>
      (apply_calls calls c).
Proof. unfold apply_calls. by rewrite foldl_app. Qed.

Lemma apply_calls_app calls1 calls2 c :
  apply_calls (calls1 ++ calls2) c = apply_calls calls2 (apply_calls calls1 c).
Proof. unfold apply_calls. by rewrite foldl_app. Qed.

Lemma for_each_upsert_run {A} (xs : list A) (mk : A → upsert_call) w :
  for_each xs (λ x, upsert (call_document (mk x)) (call_metadata (mk x))
                           (call_id (mk x))) w
  = (tt, World (data_dir w) (apply_calls (mk <$> xs) (collection w))
               (upsert_log w ++ (mk <$> xs))
               (sidebar_errors w) (messages w) (groq_log w)).
Proof.
  revert w. induction xs as [|x xs IH]; intros w; simpl.
  - destruct w; simpl. by rewrite app_nil_r.
  - unfold mbind, M_bind; simpl. rewrite IH; simpl.
    rewrite <-app_assoc. simpl. by destruct (mk x).
Qed.

Lemma index_chunks_run filename content w :
  index_chunks filename content w
  = (tt, World (data_dir w)
               (apply_calls (chunk_calls filename content) (collection w))
               (upsert_log w ++ chunk_calls filename content)
               (sidebar_errors w) (messages w) (groq_log w)).
Proof.
  unfold index_chunks, chunk_calls.
  apply (for_each_upsert_run (chunk_offsets content)
    (λ i, UpsertCall (chunk_id filename i) (chunk_at content i)
                     (Metadata filename))).
Qed.

Lemma extract_content_run f w :
  extract_content f w
  = (extracted_text f,
     World (data_dir w) (collection w) (upsert_log w)
           (sidebar_errors w ++ reported_errors f) (messages w) (groq_log w)).
Proof.
  unfold extracted_text, reported_errors, extract_content.
  destruct w as [d c l e m g].
  destruct (endswith (name f) (lit ".txt")).
  { destruct (read_text f); simpl; by rewrite ?app_nil_r. }
  destruct (endswith (name f) (lit ".pdf")); [|simpl; by rewrite app_nil_r].
  destruct (read_pdf f) as [pages|]; [|done].
  destruct (pdf_pages_loop pages []) as [content [exn|]]; simpl;
    by rewrite ?app_nil_r.
Qed.

Lemma sync_file_run f w :
  sync_file f w
  = (tt, World (data_dir w) (apply_calls (file_calls f) (collection w))
               (upsert_log w ++ file_calls f)
               (sidebar_errors w ++ reported_errors f)
               (messages w) (groq_log w)).
Proof.
  unfold sync_file, file_calls, mbind, M_bind.
  rewrite extract_content_run.
  destruct (truthy (extracted_text f)).
  - by rewrite index_chunks_run.
  - simpl. by rewrite app_nil_r.
Qed.

Lemma for_each_sync_file_run entries w :
  for_each entries sync_file w
  = (tt, World (data_dir w) (apply_calls (dir_calls entries) (collection w))
               (upsert_log w ++ dir_calls entries)
               (sidebar_errors w ++ (entries ≫= reported_errors))
               (messages w) (groq_log w)).
Proof.
  revert w. induction entries as [|f entries IH]; intros w; simpl.
  - destruct w; simpl. by rewrite !app_nil_r.
  - unfold mbind at 1, M_bind at 1. rewrite sync_file_run, IH; simpl.
    unfold dir_calls. by rewrite apply_calls_app, <-!app_assoc.
Qed.

Lemma load_files_to_db_run w :
  load_files_to_db w
  = (sync_status,
     let entries := default [] (data_dir w) in
     World (Some entries) (apply_calls (dir_calls entries) (collection w))
           (upsert_log w ++ dir_calls entries)
           (sidebar_errors w ++ (entries ≫= reported_errors))
           (messages w) (groq_log w)).
Proof.
  destruct w as [[d|] c l e m g];
    cbv [load_files_to_db mbind M_bind ensure_directory listdir mret M_ret
         data_dir default collection upsert_log sidebar_errors messages
         groq_log];
    by rewrite for_each_sync_file_run.
Qed.

(** ** Chunk count *)

(** C1, as the specification states it, fails: a text of 2000 characters is
    cut at offsets 0, 650, 1300 and 1950, four chunks, where the formula
    [ceil(max(L - 150, 0) / 650)] gives three. *)
Lemma chunk_count_spec_formula_fails :
  chunk_offsets text_2000 = [0; 650; 1300; 1950]
  ∧ length (chunk_calls (lit "notes.txt") text_2000) = 4
  ∧ spec_chunk_count (length text_2000) = 3
  ∧ length (chunk_calls (lit "notes.txt") text_2000)
    ≠ spec_chunk_count (length text_2000).
Proof. by vm_compute. Qed.

(** C1, amended: chunking a text of length [L] upserts exactly
    [ceil(L / 650)] chunks (none for [L = 0]), one per offset
    [0, 650, 1300, ...] below [L]; a text of length 2000 yields exactly 4
    chunks, at offsets 0, 650, 1300 and 1950. *)
Theorem chunk_count_formula filename content w :
  upsert_log (exec (index_chunks filename content) w)
    = upsert_log w ++ chunk_calls filename content
  ∧ length (chunk_calls filename content)
    = ceil_div (length content) (chunk_size - overlap)
  ∧ (∀ k i, chunk_offsets content !! k = Some i
            ↔ i = k * (chunk_size - overlap) ∧ i < length content)
  ∧ chunk_calls filename [] = []
  ∧ (length content = 2000 →
     chunk_offsets content = [0; 650; 1300; 1950]
     ∧ length (chunk_calls filename content) = 4).
Proof.
  assert (Hlen : length (chunk_calls filename content)
                 = ceil_div (length content) 650).
  { unfold chunk_calls. by rewrite length_fmap, chunk_offsets_length. }
  split_and!.
  - unfold exec. by rewrite index_chunks_run.
  - exact Hlen.
  - intros k i. apply chunk_offsets_lookup.
  - reflexivity.
  - intros H2000. unfold chunk_calls, chunk_offsets.
    rewrite length_fmap, H2000. by vm_compute.
Qed.

Lemma chunk_count_formula_witness :
  chunk_offsets text_2000 = [0; 650; 1300; 1950]
  ∧ length (chunk_calls (lit "notes.txt") text_2000) = 4.
Proof.
  destruct (chunk_count_formula (lit "notes.txt") text_2000 empty_world)
    as (_ & _ & _ & _ & H).
  apply H. reflexivity.
Defined.

(** The scenario of the specification: [notes.txt] with 2000 characters
    gives four chunks, and [guide.pdf] with two pages of 500 characters
    gives a text of 1002 characters (each page is followed by a newline)
    and so two chunks. *)
Lemma scenario_chunks :
  length (extracted_text scenario_pdf) = 1002
  ∧ call_id <$> dir_calls [notes_txt; scenario_pdf]
    = [lit "notes.txt_part_0"; lit "notes.txt_part_650";
       lit "notes.txt_part_1300"; lit "notes.txt_part_1950";
       lit "guide.pdf_part_0"; lit "guide.pdf_part_650"].
Proof. by vm_compute. Qed.

(** ** Chunk coverage *)

(** C4: every chunk has at most 800 characters and is the stretch of the
    text that starts at its offset; every position of the text lies in
    some chunk; and each chunk after the first shares exactly 150 positions
    with its predecessor, unless it is the final chunk and shorter than
    800 (in which case it shares all of its positions, at least one, with
    the predecessor). *)
Theorem chunk_coverage content :
  (∀ i, i ∈ chunk_offsets content →
     length (chunk_at content i) ≤ chunk_size
     ∧ (chunk_range content i).2 ≤ length content
     ∧ chunk_at content i
       = take (length (chunk_at content i)) (drop i content))
  ∧ (∀ p, p < length content →
     ∃ i, i ∈ chunk_offsets content
          ∧ (chunk_range content i).1 ≤ p < (chunk_range content i).2
          ∧ chunk_at content i !! (p - i) = content !! p)
  ∧ (∀ k i j,
       chunk_offsets content !! k = Some i →
       chunk_offsets content !! S k = Some j →
       let shared :=
         range_overlap (chunk_range content i) (chunk_range content j) in
       shared = overlap
       ∨ (chunk_offsets content !! S (S k) = None
          ∧ length (chunk_at content j) < chunk_size
          ∧ shared = length (chunk_at content j)
          ∧ 0 < shared)).
Proof.
  split_and!.
  - intros i [[k ->] Hi]%chunk_offsets_elem. unfold chunk_range; cbn [fst snd].
    rewrite chunk_at_length. split_and!; [lia | lia |].
    unfold chunk_at, slice, chunk_size.
    destruct (decide (800 ≤ length content - k * 650)).
    + f_equal. lia.
    + rewrite !take_ge; [done | rewrite length_drop; lia..].
  - intros p Hp. exists (p / 650 * 650).
    pose proof (Nat.Div0.div_mod p 650) as Hdiv.
    assert (p `mod` 650 < 650) as Hmod by (apply Nat.mod_upper_bound; lia).
    unfold chunk_range; cbn [fst snd]. rewrite chunk_at_length. unfold chunk_size.
    split_and!; [|lia|lia|].
    + apply chunk_offsets_elem. split; [eauto | lia].
    + apply chunk_at_lookup. unfold chunk_size. lia.
  - intros k i j [-> Hi]%chunk_offsets_lookup [-> Hj]%chunk_offsets_lookup.
    unfold range_overlap, chunk_range; cbn [fst snd].
    rewrite !chunk_at_length. unfold chunk_size, overlap.
    destruct (decide (S k * 650 + 150 ≤ length content)) as [Hfull|Hshort].
    + left. lia.
    + right. split_and!; [|lia..].
      destruct (chunk_offsets content !! S (S k)) as [x|] eqn:Hx; [|done].
      apply chunk_offsets_lookup in Hx. lia.
Qed.

Lemma chunk_coverage_witness :
  (length (chunk_at text_2000 1950) ≤ chunk_size
   ∧ (chunk_range text_2000 1950).2 ≤ length text_2000
   ∧ chunk_at text_2000 1950
     = take (length (chunk_at text_2000 1950)) (drop 1950 text_2000))
  ∧ (∃ i, i ∈ chunk_offsets text_2000
          ∧ (chunk_range text_2000 i).1 ≤ 1999 < (chunk_range text_2000 i).2
          ∧ chunk_at text_2000 i !! (1999 - i) = text_2000 !! 1999)
  ∧ (range_overlap (chunk_range text_2000 0) (chunk_range text_2000 650)
     = overlap
     ∨ (chunk_offsets text_2000 !! 2 = None
        ∧ length (chunk_at text_2000 650) < chunk_size
        ∧ range_overlap (chunk_range text_2000 0) (chunk_range text_2000 650)
          = length (chunk_at text_2000 650)
        ∧ 0 < range_overlap (chunk_range text_2000 0)
                            (chunk_range text_2000 650))).
Proof.
  destruct (chunk_coverage text_2000) as (Hlen & Hcover & Hshare).
  split; [|split].
  - apply Hlen. apply (bool_decide_unpack _). vm_compute. exact I.
  - apply Hcover. vm_compute. lia.
  - apply (Hshare 0 0 650); reflexivity.
Defined.

(** ** Chunk ids *)

Lemma pretty_N_char_digit x : digit (Ascii.N_of_ascii (pretty_N_char x)).
Proof. unfold pretty_N_char, digit. repeat case_match; simpl; lia. Qed.

Lemma pretty_N_go_digits x s :
  Forall digit (bytes_of s) → Forall digit (bytes_of (pretty_N_go x s)).
Proof.
  revert s. induction (N.lt_wf_0 x) as [x _ IH]; intros s Hs.
  destruct (decide (x = 0)%N) as [->|Hx]; [by rewrite pretty_N_go_0|].
  rewrite pretty_N_go_step by lia. apply IH.
  - apply N.div_lt; lia.
  - unfold bytes_of; simpl. constructor; [apply pretty_N_char_digit | done].
Qed.

Lemma pretty_nat_digits (i : nat) : Forall digit (bytes_of (pretty i)).
Proof.
  unfold pretty, pretty_nat, pretty, pretty_N. case_decide.
  - repeat constructor; unfold digit; simpl; lia.
  - by apply pretty_N_go_digits.
Qed.

Lemma utf8_decode_ascii bs :
  Forall (λ b, b < 128)%N bs → utf8_decode bs = bs.
Proof.
  induction 1 as [|b bs Hb _ IH]; simpl; [done|].
  destruct (N.ltb_spec b 128); [by rewrite IH | lia].
Qed.

Lemma str_of_nat_bytes i : str_of_nat i = bytes_of (pretty i).
Proof.
  unfold str_of_nat, lit. apply utf8_decode_ascii.
  eapply Forall_impl; [apply pretty_nat_digits|].
  unfold digit. intros; simpl in *; lia.
Qed.

Lemma str_of_nat_digits i : Forall digit (str_of_nat i).
Proof. rewrite str_of_nat_bytes. apply pretty_nat_digits. Qed.

Lemma bytes_of_inj s1 s2 : bytes_of s1 = bytes_of s2 → s1 = s2.
Proof.
  unfold bytes_of. intros H.
  rewrite <-(String.string_of_list_ascii_of_string s1),
          <-(String.string_of_list_ascii_of_string s2).
  f_equal. revert H.
  generalize (String.list_ascii_of_string s1) as l1.
  generalize (String.list_ascii_of_string s2) as l2.
  intros l2 l1. revert l2.
  induction l1 as [|a l1 IH]; intros [|b l2] H; simplify_eq/=; [done|].
  f_equal; [|by apply IH].
  rewrite <-(Ascii.ascii_N_embedding a), <-(Ascii.ascii_N_embedding b).
  by f_equal.
Qed.

(** [str(i)] determines [i]. *)
Lemma str_of_nat_inj i j : str_of_nat i = str_of_nat j → i = j.
Proof.
  rewrite !str_of_nat_bytes. intros H%bytes_of_inj.
  by apply (inj pretty) in H.
Qed.

Lemma split_at_first_inj (a : N) (l1 l2 r1 r2 : list N) :
  a ∉ l1 → a ∉ l2 → l1 ++ a :: r1 = l2 ++ a :: r2 → l1 = l2 ∧ r1 = r2.
Proof.
  revert l2. induction l1 as [|x l1 IH]; intros [|y l2] H1 H2 H;
    simplify_eq/=.
  - done.
  - by apply not_elem_of_cons in H2 as [? _].
  - by apply not_elem_of_cons in H1 as [? _].
  - apply not_elem_of_cons in H1 as [_ H1].
    apply not_elem_of_cons in H2 as [_ H2].
    by destruct (IH l2 H1 H2) as [-> ->].
Qed.

Lemma part_literal : lit "_part_" = [95; 112; 97; 114; 116; 95]%N.
Proof. by vm_compute. Qed.

(** The id determines the file name and the offset: the digits after the
    last ["_part_"] contain no underscore. *)
Lemma chunk_id_inj f1 i1 f2 i2 :
  chunk_id f1 i1 = chunk_id f2 i2 → f1 = f2 ∧ i1 = i2.
Proof.
  unfold chunk_id. intros H.
  assert (Hnd : ∀ i, 95%N ∉ reverse (str_of_nat i)).
  { intros i. rewrite elem_of_reverse. intros Hin.
    pose proof (str_of_nat_digits i) as Hd.
    rewrite Forall_forall in Hd. apply Hd in Hin. unfold digit in Hin. lia. }
  rewrite part_literal in H.
  apply (f_equal reverse) in H. rewrite !reverse_app in H.
  change (reverse [95; 112; 97; 114; 116; 95]%N)
    with ([95] ++ [116; 114; 97; 112; 95])%N in H.
  rewrite <-!app_assoc in H.
  apply (split_at_first_inj 95 _ _
           ([116; 114; 97; 112; 95]%N ++ reverse f1)
           ([116; 114; 97; 112; 95]%N ++ reverse f2)) in H as [Hd Hf];
    [|apply Hnd..].
  apply (inj reverse) in Hd. apply str_of_nat_inj in Hd.
  apply app_inv_head in Hf. apply (inj reverse) in Hf. done.
Qed.

(** ** Upserts on the collection *)

Lemma apply_calls_union calls c :
  apply_calls calls c = apply_calls calls ∅ ∪ c.
Proof.
  revert c. induction calls as [|call calls IH]; intros c; simpl.
  - by rewrite (left_id_L ∅ (∪)).
  - rewrite IH. rewrite (IH (<[_:=_]> ∅)).
    rewrite <-(assoc_L (∪)). f_equal.
    rewrite insert_union_singleton_l.
    by rewrite (insert_union_singleton_l ∅), (right_id_L ∅ (∪)).
Qed.

Lemma apply_calls_idemp calls c :
  apply_calls calls (apply_calls calls c) = apply_calls calls c.
Proof.
  rewrite (apply_calls_union calls (apply_calls calls c)).
  rewrite (apply_calls_union calls c).
  by rewrite (assoc_L (∪)), (idemp_L (∪)).
Qed.

(** An id that is not upserted keeps its entry (or its absence). *)
Lemma apply_calls_frame calls c id :
  id ∉ call_id <$> calls → apply_calls calls c !! id = c !! id.
Proof.
  induction calls as [|call calls IH] using rev_ind; [done|].
  rewrite fmap_app, not_elem_of_app. simpl. intros [Hcalls Hcall].
  rewrite apply_calls_snoc, lookup_insert_ne; [by apply IH|].
  intros Heq. apply Hcall. rewrite Heq. by left.
Qed.

(** A lookup after the calls finds either what was there before, or what
    one of the calls stored. *)
Lemma apply_calls_lookup calls c id :
  apply_calls calls c !! id = c !! id
  ∨ ∃ call, call ∈ calls ∧ call_id call = id
            ∧ apply_calls calls c !! id
              = Some (call_document call, call_metadata call).
Proof.
  induction calls as [|call calls IH] using rev_ind; [by left|].
  rewrite apply_calls_snoc.
  destruct (decide (call_id call = id)) as [<-|Hne].
  - right. exists call. rewrite lookup_insert_eq, elem_of_app.
    split_and!; [right; by left | done | done].
  - rewrite lookup_insert_ne by done.
    destruct IH as [?|(call' & ? & ? & ?)]; [by left|].
    right. exists call'. rewrite elem_of_app. eauto.
Qed.

(** With pairwise distinct ids every call's document ends up stored. *)
Lemma apply_calls_lookup_NoDup calls c call :
  NoDup (call_id <$> calls) → call ∈ calls →
  apply_calls calls c !! call_id call
  = Some (call_document call, call_metadata call).
Proof.
  induction calls as [|call' calls IH] using rev_ind; [by intros _ ?%elem_of_nil|].
  rewrite fmap_app, NoDup_app, elem_of_app. simpl.
  intros (Hnd & Hdisj & _) Hin. rewrite apply_calls_snoc.
  destruct Hin as [Hin|Hin%list_elem_of_singleton].
  - rewrite lookup_insert_ne; [by apply IH|].
    intros Heq. apply (Hdisj (call_id call)).
    + by apply list_elem_of_fmap_2.
    + rewrite Heq. by left.
  - subst. by rewrite lookup_insert_eq.
Qed.

(** Every call made for a listing is a chunk of one of its entries. *)
Lemma dir_calls_elem entries call :
  call ∈ dir_calls entries ↔
  ∃ f i, f ∈ entries ∧ i ∈ chunk_offsets (extracted_text f)
         ∧ call = UpsertCall (chunk_id (name f) i)
                             (chunk_at (extracted_text f) i)
                             (Metadata (name f)).
Proof.
  unfold dir_calls. rewrite list_elem_of_bind. split.
  - intros (f & Hcall & Hf). exists f. unfold file_calls in Hcall.
    destruct (truthy (extracted_text f)); [|by apply elem_of_nil in Hcall].
    unfold chunk_calls in Hcall.
    apply list_elem_of_fmap in Hcall as (i & -> & Hi). eauto.
  - intros (f & i & Hf & Hi & ->). exists f. split; [|done].
    unfold file_calls.
    destruct (extracted_text f) as [|c0 text] eqn:Htext; simpl.
    + apply chunk_offsets_elem in Hi as [_ Hi]. simpl in Hi. lia.
    + unfold chunk_calls. rewrite <-Htext.
      apply list_elem_of_fmap. rewrite <-Htext in Hi. eauto.
Qed.

(** ** Idempotent re-sync *)

(** C3: a second synchronisation of the same directory leaves the
    collection exactly as the first one left it: same entries, same
    number of entries. *)
Theorem resync_idempotent w :
  let w1 := exec load_files_to_db w in
  let w2 := exec load_files_to_db w1 in
  data_dir w2 = data_dir w1
  ∧ collection w2 = collection w1
  ∧ size (collection w2) = size (collection w1)
  ∧ (∀ id, collection w2 !! id = collection w1 !! id).
Proof.
  cbv zeta. unfold exec. rewrite !load_files_to_db_run. cbn [snd].
  cbv zeta. cbn [data_dir collection default]. unfold id.
  by rewrite !apply_calls_idemp.
Qed.

(** ** Synchronisation never deletes *)

(** C9: after a pass, every id that was not upserted during the pass has
    the entry it had before; in particular the chunks of a file that is no
    longer listed, and the chunks of a listed file at offsets its text no
    longer reaches; and no entry disappears. *)
Theorem sync_never_deletes w :
  let w' := exec load_files_to_db w in
  let upserted := drop (length (upsert_log w)) (upsert_log w') in
  (∀ id, id ∉ call_id <$> upserted →
         collection w' !! id = collection w !! id)
  ∧ (∀ filename i,
       (∀ f, f ∈ default [] (data_dir w) → name f = filename →
             length (extracted_text f) ≤ i) →
       collection w' !! chunk_id filename i
       = collection w !! chunk_id filename i)
  ∧ (∀ id, is_Some (collection w !! id) → is_Some (collection w' !! id)).
Proof.
  cbv zeta. unfold exec. rewrite load_files_to_db_run. cbn [snd].
  cbv zeta. cbn [collection upsert_log]. rewrite drop_app_length.
  set (entries := default [] (data_dir w)).
  split_and!.
  - intros id Hid. by apply apply_calls_frame.
  - intros filename i Hshort. apply apply_calls_frame.
    intros (call & Hcall & Hin)%list_elem_of_fmap.
    apply dir_calls_elem in Hin as (f & i' & Hf & Hi' & ->).
    simpl in Hcall. apply chunk_id_inj in Hcall as [Hname ->].
    apply chunk_offsets_elem in Hi' as [_ Hi'].
    specialize (Hshort f Hf (eq_sym Hname)). lia.
  - intros id Hsome.
    destruct (apply_calls_lookup (dir_calls entries) (collection w) id)
      as [->|(call & _ & _ & ->)]; [done | eauto].
Qed.

Lemma sync_never_deletes_witness :
  collection (exec load_files_to_db stale_world) !! chunk_id (lit "gone.txt") 0
  = collection stale_world !! chunk_id (lit "gone.txt") 0
  ∧ collection (exec load_files_to_db stale_world)
      !! chunk_id (lit "notes.txt") 2600
    = collection stale_world !! chunk_id (lit "notes.txt") 2600
  ∧ is_Some (collection (exec load_files_to_db stale_world)
               !! chunk_id (lit "gone.txt") 0).
Proof.
  destruct (sync_never_deletes stale_world) as (Hframe & Hstale & Hkeep).
  split_and!.
  - apply Hframe. apply (bool_decide_unpack _). vm_compute. exact I.
  - apply Hstale. intros f Hf%list_elem_of_singleton _. subst f.
    vm_compute. lia.
  - apply Hkeep. apply (bool_decide_unpack _). vm_compute. exact I.
Defined.

(** ** Distinct ids within a file *)

Lemma chunk_offsets_increasing content k1 k2 i1 i2 :
  k1 < k2 →
  chunk_offsets content !! k1 = Some i1 →
  chunk_offsets content !! k2 = Some i2 → i1 < i2.
Proof.
  intros Hk [-> _]%chunk_offsets_lookup [-> _]%chunk_offsets_lookup. lia.
Qed.

Lemma chunk_offsets_NoDup content : NoDup (chunk_offsets content).
Proof.
  apply NoDup_alt. intros k1 k2 i.
  intros [-> _]%chunk_offsets_lookup [Heq _]%chunk_offsets_lookup. lia.
Qed.

Lemma chunk_calls_ids filename content :
  call_id <$> chunk_calls filename content
  = chunk_id filename <$> chunk_offsets content.
Proof. unfold chunk_calls. by rewrite <-list_fmap_compose. Qed.

Lemma chunk_calls_ids_NoDup filename content :
  NoDup (call_id <$> chunk_calls filename content).
Proof.
  rewrite chunk_calls_ids. apply NoDup_fmap_2; [|apply chunk_offsets_NoDup].
  intros i j Hij. by apply chunk_id_inj in Hij as [_ ?].
Qed.

(** C10: the ids of the chunks of one file are pairwise distinct (the
    offsets increase strictly and the id determines the offset), so after
    the chunk loop every chunk of the file is stored under its own id. *)
Theorem chunk_ids_distinct filename content w :
  NoDup (call_id <$> chunk_calls filename content)
  ∧ (∀ k1 k2 i1 i2,
       k1 < k2 →
       chunk_offsets content !! k1 = Some i1 →
       chunk_offsets content !! k2 = Some i2 →
       i1 < i2 ∧ chunk_id filename i1 ≠ chunk_id filename i2)
  ∧ (∀ i, i ∈ chunk_offsets content →
       collection (exec (index_chunks filename content) w)
         !! chunk_id filename i
       = Some (chunk_at content i, Metadata filename)).
Proof.
  pose proof (chunk_calls_ids_NoDup filename content) as Hnd.
  split_and!; [done|..].
  - intros k1 k2 i1 i2 Hk H1 H2.
    pose proof (chunk_offsets_increasing _ _ _ _ _ Hk H1 H2).
    split; [done|]. intros [_ ?]%chunk_id_inj. lia.
  - intros i Hi. unfold exec. rewrite index_chunks_run. cbn [snd collection].
    apply (apply_calls_lookup_NoDup _ _
             (UpsertCall (chunk_id filename i) (chunk_at content i)
                         (Metadata filename)) Hnd).
    unfold chunk_calls. apply list_elem_of_fmap. eauto.
Qed.

Lemma chunk_ids_distinct_witness :
  (0 < 650 ∧ chunk_id (lit "notes.txt") 0 ≠ chunk_id (lit "notes.txt") 650)
  ∧ collection (exec (index_chunks (lit "notes.txt") text_2000) empty_world)
      !! chunk_id (lit "notes.txt") 1950
    = Some (chunk_at text_2000 1950, Metadata (lit "notes.txt")).
Proof.
  destruct (chunk_ids_distinct (lit "notes.txt") text_2000 empty_world)
    as (_ & Hneq & Hstored).
  split.
  - apply (Hneq 0 1); [lia | reflexivity | reflexivity].
  - apply Hstored. apply (bool_decide_unpack _). vm_compute. exact I.
Defined.

(** ** Chunk id format *)

Lemma byte_offset_ascii (text : list N) i :
  i ≤ length text → Forall (λ c, c < 128)%N (take i text) →
  byte_offset text i = i.
Proof.
  unfold byte_offset. revert i.
  induction text as [|c text IH]; intros [|i] Hi Hascii; simpl in *;
    [done | lia | done |].
  apply Forall_cons in Hascii as [Hc Hascii].
  rewrite IH by (done || lia). unfold utf8_width.
  destruct (N.ltb_spec c 128); [done | lia].
Qed.

Lemma sum_list_cons (x : nat) (l : list nat) :
  sum_list (x :: l) = x + sum_list l.
Proof. reflexivity. Qed.

Lemma utf8_width_pos c : 1 ≤ utf8_width c.
Proof. unfold utf8_width. repeat case_match; lia. Qed.

Lemma utf8_width_one c : utf8_width c = 1 → (c < 128)%N.
Proof.
  unfold utf8_width. destruct (N.ltb_spec c 128); [done|].
  repeat case_match; lia.
Qed.

Lemma utf8_widths_ge (l : list N) : length l ≤ sum_list (utf8_width <$> l).
Proof.
  induction l as [|c l IH]; [done|].
  rewrite fmap_cons, sum_list_cons. cbn [length].
  pose proof (utf8_width_pos c). lia.
Qed.

Lemma utf8_widths_ascii (l : list N) :
  sum_list (utf8_width <$> l) = length l → Forall (λ c, c < 128)%N l.
Proof.
  induction l as [|c l IH]; [constructor|].
  rewrite fmap_cons, sum_list_cons. cbn [length]. intros Hsum.
  pose proof (utf8_width_pos c). pose proof (utf8_widths_ge l).
  constructor.
  - apply utf8_width_one. lia.
  - apply IH. lia.
Qed.

(** The index of a character is its byte offset only if every character
    before it is ASCII. *)
Lemma byte_offset_ascii_inv (text : list N) i :
  i ≤ length text → byte_offset text i = i →
  Forall (λ c, c < 128)%N (take i text).
Proof.
  intros Hi Hoff. apply utf8_widths_ascii. unfold byte_offset in Hoff.
  rewrite Hoff, length_take. lia.
Qed.

(** C5, as stated, fails: the number in the id is the index of the chunk's
    first character, not its byte offset.  For a text of 651 Hangul
    syllables the second chunk starts at character 650, which is byte
    1950 of the text, and its id ends in [650]. *)
Lemma chunk_id_is_not_byte_offset :
  ∃ call,
    upsert_log (exec (sync_file ko_txt) empty_world) !! 1 = Some call
    ∧ call_document call = drop 650 (extracted_text ko_txt)
    ∧ byte_offset (extracted_text ko_txt) 650 = 1950
    ∧ call_id call = lit "ko.txt_part_650"
    ∧ call_id call
      ≠ name ko_txt ++ lit "_part_"
        ++ str_of_nat (byte_offset (extracted_text ko_txt) 650).
Proof. eexists. split; [by vm_compute|]. by vm_compute. Qed.

(** C5, amended: every id upserted during a pass is the file name followed
    by ["_part_"] and the decimal index of the chunk's first character in
    the extracted text (which is its byte offset exactly when the text
    before it is ASCII); the id determines and is determined by the pair
    of file name and index, and a second pass over the unchanged directory
    makes the same calls with the same ids. *)
Theorem chunk_id_format w :
  let w1 := exec load_files_to_db w in
  let w2 := exec load_files_to_db w1 in
  let pass1 := drop (length (upsert_log w)) (upsert_log w1) in
  let pass2 := drop (length (upsert_log w1)) (upsert_log w2) in
  (∀ call, call ∈ pass1 →
     ∃ f i, f ∈ default [] (data_dir w)
       ∧ i ∈ chunk_offsets (extracted_text f)
       ∧ call_id call = name f ++ lit "_part_" ++ str_of_nat i
       ∧ call_document call = take chunk_size (drop i (extracted_text f))
       ∧ call_metadata call = Metadata (name f))
  ∧ (∀ (text : list N) i,
       i ≤ length text →
       (byte_offset text i = i ↔ Forall (λ c, c < 128)%N (take i text)))
  ∧ pass2 = pass1
  ∧ (∀ f1 i1 f2 i2, chunk_id f1 i1 = chunk_id f2 i2 ↔ f1 = f2 ∧ i1 = i2).
Proof.
  cbv zeta. unfold exec. rewrite !load_files_to_db_run. cbn [snd].
  cbv zeta. cbn [data_dir upsert_log default]. unfold id.
  rewrite !drop_app_length.
  split; [|split; [|split; [done|]]].
  - intros call (f & i & Hf & Hi & ->)%dir_calls_elem.
    exists f, i. split_and!; try done.
    unfold chunk_at, slice. simpl. f_equal. lia.
  - intros text i Hi. split.
    + by apply byte_offset_ascii_inv.
    + by apply byte_offset_ascii.
  - intros f1 i1 f2 i2. split; [apply chunk_id_inj | by intros [-> ->]].
Qed.

Lemma chunk_id_format_witness :
  (∃ f i, f ∈ [notes_txt]
     ∧ i ∈ chunk_offsets (extracted_text f)
     ∧ chunk_id (lit "notes.txt") 650 = name f ++ lit "_part_" ++ str_of_nat i
     ∧ chunk_at text_2000 650 = take chunk_size (drop i (extracted_text f))
     ∧ Metadata (lit "notes.txt") = Metadata (name f))
  ∧ byte_offset text_2000 650 = 650
  ∧ Forall (λ c, c < 128)%N (take 650 text_2000)
  ∧ (lit "notes.txt" = lit "notes.txt" ∧ 650 = 650).
Proof.
  destruct (chunk_id_format stale_world) as (Hformat & Hascii & _ & Hinj).
  split; [|split; [|split]].
  - apply (Hformat (UpsertCall (chunk_id (lit "notes.txt") 650)
                               (chunk_at text_2000 650)
                               (Metadata (lit "notes.txt")))).
    apply (list_elem_of_lookup_2 _ 1). by vm_compute.
  - apply (Hascii text_2000 650); [vm_compute; lia|].
    apply (bool_decide_unpack _). vm_compute. exact I.
  - apply (Hascii text_2000 650); [vm_compute; lia|]. reflexivity.
  - apply (Hinj (lit "notes.txt") 650 (lit "notes.txt") 650). reflexivity.
Defined.

(** ** Empty extracted text *)

Lemma pdf_pages_loop_no_text pages content :
  Forall (λ p, p = Ok []) pages → pdf_pages_loop pages content = (content, None).
Proof.
  intros Hpages. revert content.
  induction Hpages as [|p pages -> _ IH]; intros acc; simpl; auto.
Qed.

Lemma chunk_offsets_empty : chunk_offsets [] = [].
Proof. reflexivity. Qed.

(** C6: an entry whose extracted text is empty is not chunked and adds
    nothing to the index; the pass goes on normally.  This is the case of
    a [.txt] file whose read failed and of a PDF none of whose pages
    yields text. *)
Theorem empty_text_no_chunks f w :
  (extracted_text f = [] →
     file_calls f = []
     ∧ collection (exec (sync_file f) w) = collection w
     ∧ upsert_log (exec (sync_file f) w) = upsert_log w
     ∧ run (sync_file f) w
       = (tt, World (data_dir w) (collection w) (upsert_log w)
                    (sidebar_errors w ++ reported_errors f)
                    (messages w) (groq_log w)))
  ∧ (∀ e, endswith (name f) (lit ".txt") = true →
          read_text f = Raise e → extracted_text f = [])
  ∧ (∀ pages, endswith (name f) (lit ".txt") = false →
          endswith (name f) (lit ".pdf") = true →
          read_pdf f = Ok pages → Forall (λ p, p = Ok []) pages →
          extracted_text f = [] ∧ reported_errors f = [])
  ∧ chunk_calls (name f) [] = [].
Proof.
  split_and!.
  - intros Hempty.
    assert (Hcalls : file_calls f = []).
    { unfold file_calls. by rewrite Hempty. }
    unfold exec, run. rewrite sync_file_run, Hcalls. simpl.
    by rewrite app_nil_r.
  - intros e Htxt Hread. unfold extracted_text, extract_content.
    by rewrite Htxt, Hread.
  - intros pages Htxt Hpdf Hread Hpages.
    unfold extracted_text, reported_errors, extract_content.
    rewrite Htxt, Hpdf, Hread, (pdf_pages_loop_no_text _ _ Hpages). done.
  - reflexivity.
Qed.

Lemma empty_text_no_chunks_witness :
  (file_calls broken_txt = []
   ∧ collection (exec (sync_file broken_txt) stale_world)
     = collection stale_world
   ∧ upsert_log (exec (sync_file broken_txt) stale_world)
     = upsert_log stale_world
   ∧ run (sync_file broken_txt) stale_world
     = (tt, World (data_dir stale_world) (collection stale_world)
                  (upsert_log stale_world)
                  (sidebar_errors stale_world ++ reported_errors broken_txt)
                  (messages stale_world) (groq_log stale_world)))
  ∧ (extracted_text scan_pdf = [] ∧ reported_errors scan_pdf = []).
Proof.
  split.
  - destruct (empty_text_no_chunks broken_txt stale_world)
      as (Hskip & Htxt & _).
    apply Hskip. apply (Htxt (lit "Permission denied")); reflexivity.
  - destruct (empty_text_no_chunks scan_pdf stale_world)
      as (_ & _ & Hpdf & _).
    apply (Hpdf [Ok []; Ok []]); [reflexivity..|].
    repeat constructor.
Defined.

(** ** Per-file errors *)

(** The pass always returns the success message. *)
Lemma load_files_to_db_status w : (run load_files_to_db w).1 = sync_status.
Proof. unfold run. by rewrite load_files_to_db_run. Qed.

(** Each entry is treated on its own: the calls and the error reports of a
    listing are those of its entries, one after the other, so a failure in
    one entry does not keep the following entries from being indexed. *)
Lemma sync_continues before f after :
  dir_calls (before ++ f :: after)
  = dir_calls before ++ file_calls f ++ dir_calls after.
Proof. unfold dir_calls. by rewrite bind_app, bind_cons. Qed.

(** X11: a text file whose read raises: exactly one error is reported,
    naming the file and the exception, and nothing is indexed for it. *)
Lemma txt_read_failure f e :
  endswith (name f) (lit ".txt") = true → read_text f = Raise e →
  reported_errors f = [name f ++ lit " 읽기 실패: " ++ e] ∧ file_calls f = [].
Proof.
  intros Htxt Hread.
  unfold file_calls, extracted_text, reported_errors, extract_content.
  by rewrite Htxt, Hread.
Qed.

(** X12: a PDF that cannot be opened: exactly one error is reported,
    naming the file and the exception, and nothing is indexed for it. *)
Lemma pdf_open_failure f e :
  endswith (name f) (lit ".txt") = false →
  endswith (name f) (lit ".pdf") = true → read_pdf f = Raise e →
  reported_errors f = [name f ++ lit " PDF 읽기 실패: " ++ e]
  ∧ file_calls f = [].
Proof.
  intros Htxt Hpdf Hread.
  unfold file_calls, extracted_text, reported_errors, extract_content.
  by rewrite Htxt, Hpdf, Hread.
Qed.

(** C2 does not hold for a PDF whose extraction raises after an earlier
    page has yielded text: the error is reported, the pass goes on with
    [notes.txt] and returns the success message, but the text gathered
    before the failure is chunked and upserted, so the file is not
    skipped. *)
Lemma pdf_failure_after_text_is_indexed :
  run load_files_to_db torn_world
  = (sync_status,
     World (Some [torn_pdf; notes_txt])
           (apply_calls (chunk_calls (lit "guide.pdf") (lit "abc" ++ nl)
                         ++ chunk_calls (lit "notes.txt") text_2000) ∅)
           (chunk_calls (lit "guide.pdf") (lit "abc" ++ nl)
            ++ chunk_calls (lit "notes.txt") text_2000)
           [lit "guide.pdf PDF 읽기 실패: broken page"] [] [])
  ∧ extracted_text torn_pdf = lit "abc" ++ nl
  ∧ reported_errors torn_pdf = [lit "guide.pdf PDF 읽기 실패: broken page"]
  ∧ file_calls torn_pdf
    = [UpsertCall (lit "guide.pdf_part_0") (lit "abc" ++ nl)
                  (Metadata (lit "guide.pdf"))]
  ∧ collection (exec load_files_to_db torn_world) !! lit "guide.pdf_part_0"
    = Some (lit "abc" ++ nl, Metadata (lit "guide.pdf")).
Proof.
  assert (Htext : extracted_text torn_pdf = lit "abc" ++ nl) by by vm_compute.
  assert (Herrs : reported_errors torn_pdf
                  = [lit "guide.pdf PDF 읽기 실패: broken page"])
    by by vm_compute.
  assert (Hcalls : file_calls torn_pdf
                   = chunk_calls (lit "guide.pdf") (lit "abc" ++ nl))
    by by vm_compute.
  assert (Hnotes : file_calls notes_txt = chunk_calls (lit "notes.txt") text_2000)
    by by vm_compute.
  assert (Hrun : run load_files_to_db torn_world
    = (sync_status,
       World (Some [torn_pdf; notes_txt])
             (apply_calls (chunk_calls (lit "guide.pdf") (lit "abc" ++ nl)
                           ++ chunk_calls (lit "notes.txt") text_2000) ∅)
             (chunk_calls (lit "guide.pdf") (lit "abc" ++ nl)
              ++ chunk_calls (lit "notes.txt") text_2000)
             [lit "guide.pdf PDF 읽기 실패: broken page"] [] [])).
  { unfold run. rewrite load_files_to_db_run. unfold torn_world.
    cbv zeta. cbn [data_dir collection upsert_log sidebar_errors messages
                   groq_log default]. unfold id.
    assert (dir_calls [torn_pdf; notes_txt]
            = chunk_calls (lit "guide.pdf") (lit "abc" ++ nl)
              ++ chunk_calls (lit "notes.txt") text_2000) as ->.
    { unfold dir_calls.
      change ([torn_pdf; notes_txt] ≫= file_calls)
        with (file_calls torn_pdf ++ file_calls notes_txt ++ []).
      by rewrite app_nil_r, Hcalls, Hnotes. }
    assert ([torn_pdf; notes_txt] ≫= reported_errors
            = [lit "guide.pdf PDF 읽기 실패: broken page"]) as -> by by vm_compute.
    done. }
  split_and!; [done | done | done | by vm_compute |].
  unfold exec. unfold run in Hrun. rewrite Hrun. cbn [snd collection].
  rewrite apply_calls_app.
  rewrite apply_calls_frame.
  - by vm_compute.
  - apply (bool_decide_unpack _). by vm_compute.
Qed.

(** ** Context assembly *)

Lemma join_cons sep block blocks :
  blocks ≠ [] → join sep (block :: blocks) = block ++ sep ++ join sep blocks.
Proof. by destruct blocks. Qed.

Lemma sources_spec contexts metadatas s :
  s ∈ (build_context contexts metadatas).2 ↔ s ∈ source <$> metadatas.
Proof.
  unfold build_context. cbn [snd].
  by rewrite elem_of_elements, elem_of_list_to_set.
Qed.

Lemma sources_NoDup contexts metadatas :
  NoDup (build_context contexts metadatas).2.
Proof. unfold build_context. cbn [snd]. apply NoDup_elements. Qed.

(** C7: the context text is the blocks ["[<source>]: <text>"], one per
    retrieved pair, joined by a blank line; the sources are the source
    names of the result set, each once.  For the sources [a.txt], [a.txt],
    [b.pdf] they are the two names [a.txt] and [b.pdf]. *)
Theorem build_context_spec contexts metadatas :
  (build_context contexts metadatas).1
  = join (nl ++ nl)
      (zip_with (λ doc meta, lit "[" ++ source meta ++ lit "]: " ++ doc)
                contexts metadatas)
  ∧ (∀ sep block blocks,
       join sep [] = [] ∧ join sep [block] = block
       ∧ (blocks ≠ [] →
          join sep (block :: blocks) = block ++ sep ++ join sep blocks))
  ∧ NoDup (build_context contexts metadatas).2
  ∧ (∀ s, s ∈ (build_context contexts metadatas).2
          ↔ ∃ meta, meta ∈ metadatas ∧ source meta = s)
  ∧ (source <$> metadatas = [lit "a.txt"; lit "a.txt"; lit "b.pdf"] →
     length (build_context contexts metadatas).2 = 2
     ∧ (build_context contexts metadatas).2 ≡ₚ [lit "a.txt"; lit "b.pdf"]).
Proof.
  split_and!.
  - unfold build_context. cbn [fst]. f_equal.
    revert metadatas. induction contexts as [|doc contexts IH];
      intros [|meta metadatas]; simpl; try done.
    by rewrite IH.
  - intros sep block blocks. split_and!; [done | done | apply join_cons].
  - apply sources_NoDup.
  - intros s. rewrite sources_spec, list_elem_of_fmap. split.
    + intros (meta & -> & Hin). eauto.
    + intros (meta & Hin & <-). eauto.
  - intros Hsources.
    assert (Hperm : (build_context contexts metadatas).2
                    ≡ₚ [lit "a.txt"; lit "b.pdf"]).
    { apply NoDup_Permutation.
      - apply sources_NoDup.
      - apply NoDup_cons. split; [|apply NoDup_singleton].
        rewrite list_elem_of_singleton. by vm_compute.
      - intros s. rewrite sources_spec, Hsources.
        rewrite !elem_of_cons, elem_of_nil. tauto. }
    split; [|done]. by rewrite Hperm.
Qed.

Lemma build_context_spec_witness :
  (length (build_context [lit "x"; lit "y"; lit "z"] sample_metadatas).2 = 2
   ∧ (build_context [lit "x"; lit "y"; lit "z"] sample_metadatas).2
     ≡ₚ [lit "a.txt"; lit "b.pdf"])
  ∧ join (nl ++ nl) [lit "[a.txt]: x"; lit "[b.pdf]: z"]
    = lit "[a.txt]: x" ++ (nl ++ nl) ++ join (nl ++ nl) [lit "[b.pdf]: z"].
Proof.
  destruct (build_context_spec [lit "x"; lit "y"; lit "z"] sample_metadatas)
    as (_ & Hjoin & _ & _ & Hdedup).
  split.
  - apply Hdedup. reflexivity.
  - apply Hjoin. discriminate.
Defined.

(** The context text of that result set, written out. *)
Lemma build_context_example :
  (build_context [lit "x"; lit "y"; lit "z"] sample_metadatas).1
  = lit "[a.txt]: x" ++ nl ++ nl ++ lit "[a.txt]: y" ++ nl ++ nl
    ++ lit "[b.pdf]: z".
Proof. by vm_compute. Qed.

(** ** Empty retrieval *)

(** Whatever the context and the question, the prompt carries the third
    instruction word for word. *)
Lemma build_prompt_declines context_text query :
  ∃ before after,
    build_prompt context_text query = before ++ decline_instruction ++ after.
Proof.
  unfold build_prompt.
  match goal with
  | |- ∃ _ _, join nl ?lines = _ =>
    exists (join nl (take 10 lines) ++ nl ++ indent),
           (nl ++ join nl (drop 11 lines))
  end.
  cbn [join take drop]. rewrite <-!app_assoc. reflexivity.
Qed.

Lemma build_context_empty : build_context [] [] = ([], []).
Proof. unfold build_context. simpl. by rewrite elements_empty. Qed.

(** The requests sent and the messages recorded by one chat turn. *)
Lemma chat_turn_run search llm query w :
  truthy query = true →
  let results := search (collection w) query 3 in
  let context := build_context results.1 results.2 in
  let req := Request [(User, build_prompt context.1 query)]
                     groq_model groq_temperature in
  chat_turn search llm query w
  = (tt, World (data_dir w) (collection w) (upsert_log w) (sidebar_errors w)
               (messages w ++ [(User, query);
                               (Assistant, llm req ++ source_links context.2)])
               (groq_log w ++ [req])).
Proof.
  intros Hquery. cbv zeta. unfold chat_turn. rewrite Hquery.
  cbv [mbind M_bind append_message query_collection complete].
  destruct (build_context _ _) as [context_text sources].
  cbn [fst snd data_dir collection upsert_log sidebar_errors messages groq_log].
  by rewrite <-app_assoc.
Qed.

(** C8: when the search returns nothing, the context text and the list of
    sources are empty, and the turn still sends exactly one request to the
    completion service, whose prompt contains the instruction to decline
    word for word. *)
Theorem empty_retrieval_still_prompts search llm query w :
  truthy query = true →
  search (collection w) query 3 = ([], []) →
  let w' := exec (chat_turn search llm query) w in
  let prompt := build_prompt [] query in
  let req := Request [(User, prompt)] groq_model groq_temperature in
  build_context [] [] = ([], [])
  ∧ groq_log w' = groq_log w ++ [req]
  ∧ (∃ before after, prompt = before ++ decline_instruction ++ after)
  ∧ messages w'
    = messages w ++ [(User, query); (Assistant, llm req ++ source_links [])]
  ∧ collection w' = collection w.
Proof.
  intros Hquery Hsearch. cbv zeta. unfold exec.
  rewrite chat_turn_run by done. cbv zeta.
  rewrite Hsearch. cbn [fst snd]. rewrite build_context_empty.
  cbn [fst snd groq_log messages collection].
  split_and!; try done. apply build_prompt_declines.
Qed.

Lemma empty_retrieval_still_prompts_witness :
  build_context [] [] = ([], [])
  ∧ groq_log (exec (chat_turn search_nothing llm_fixed (lit "test")) empty_world)
    = groq_log empty_world
      ++ [Request [(User, build_prompt [] (lit "test"))]
                  groq_model groq_temperature]
  ∧ (∃ before after,
       build_prompt [] (lit "test") = before ++ decline_instruction ++ after)
  ∧ messages (exec (chat_turn search_nothing llm_fixed (lit "test")) empty_world)
    = messages empty_world
      ++ [(User, lit "test");
          (Assistant,
           llm_fixed (Request [(User, build_prompt [] (lit "test"))]
                              groq_model groq_temperature)
           ++ source_links [])]
  ∧ collection (exec (chat_turn search_nothing llm_fixed (lit "test")) empty_world)
    = collection empty_world.
Proof.
  apply (empty_retrieval_still_prompts search_nothing llm_fixed (lit "test")
           empty_world); reflexivity.
Defined.

(** The instruction of line 115 has 67 characters and starts with
    ["3. ["] followed by the syllables U+CC38 U+ACE0. *)
Lemma decline_instruction_text :
  length decline_instruction = 67
  ∧ take 6 decline_instruction = [0x33; 0x2e; 0x20; 0x5b; 0xcc38; 0xace0]%N.
Proof. by vm_compute. Qed.

(** ** The whole pass, for a directory with distinct file names *)

Lemma file_calls_ids_NoDup f : NoDup (call_id <$> file_calls f).
Proof.
  unfold file_calls. destruct (truthy (extracted_text f)).
  - apply chunk_calls_ids_NoDup.
  - apply NoDup_nil_2.
Qed.

Lemma file_calls_id f id :
  id ∈ call_id <$> file_calls f → ∃ i, id = chunk_id (name f) i.
Proof.
  unfold file_calls. destruct (truthy (extracted_text f)).
  - rewrite chunk_calls_ids. intros (i & -> & _)%list_elem_of_fmap. eauto.
  - by intros ?%elem_of_nil.
Qed.

(** [os.listdir] never lists a name twice; then no id is upserted twice
    in a pass. *)
Lemma dir_calls_ids_NoDup entries :
  NoDup (name <$> entries) → NoDup (call_id <$> dir_calls entries).
Proof.
  induction entries as [|f entries IH]; [intros _; apply NoDup_nil_2|].
  rewrite fmap_cons, NoDup_cons. intros [Hf Hnames].
  change (dir_calls (f :: entries)) with (file_calls f ++ dir_calls entries).
  rewrite fmap_app. apply NoDup_app. split_and!.
  - apply file_calls_ids_NoDup.
  - intros id [i ->]%file_calls_id (call & Hid & Hcall)%list_elem_of_fmap.
    apply dir_calls_elem in Hcall as (f' & i' & Hf' & _ & ->).
    simpl in Hid. apply chunk_id_inj in Hid as [Hname _].
    apply Hf. rewrite Hname. by apply list_elem_of_fmap_2.
  - by apply IH.
Qed.

Lemma apply_calls_perm calls calls' c :
  NoDup (call_id <$> calls) → calls ≡ₚ calls' →
  apply_calls calls c = apply_calls calls' c.
Proof.
  intros Hnd Hperm. apply map_eq. intros id.
  assert (Hnd' : NoDup (call_id <$> calls')) by by rewrite <-Hperm.
  destruct (decide (id ∈ call_id <$> calls)) as [Hin|Hout].
  - apply list_elem_of_fmap in Hin as (call & -> & Hcall).
    rewrite (apply_calls_lookup_NoDup calls) by done.
    rewrite (apply_calls_lookup_NoDup calls'); [done | done |].
    by rewrite <-Hperm.
  - rewrite (apply_calls_frame calls) by done.
    rewrite (apply_calls_frame calls'); [done|]. by rewrite <-Hperm.
Qed.

(** X14: re-synchronising is idempotent also when the second pass lists
    the same files in another order. *)
Lemma resync_order_irrelevant w entries' :
  NoDup (name <$> default [] (data_dir w)) →
  entries' ≡ₚ default [] (data_dir w) →
  collection (exec load_files_to_db
                (with_listing entries' (exec load_files_to_db w)))
  = collection (exec load_files_to_db w).
Proof.
  intros Hnames Hperm. unfold exec, with_listing.
  rewrite !load_files_to_db_run. cbn [snd]. cbv zeta.
  cbn [data_dir collection default]. unfold id.
  rewrite <-(apply_calls_perm (dir_calls (default [] (data_dir w)))
                               (dir_calls entries')).
  - apply apply_calls_idemp.
  - by apply dir_calls_ids_NoDup.
  - unfold dir_calls. by rewrite Hperm.
Qed.

(** X13: after a pass over a directory, every chunk of every listed file
    is stored under its id with the chunk's text and the file's name as
    source, whatever the collection held under that id before. *)
Lemma every_chunk_stored w f i :
  NoDup (name <$> default [] (data_dir w)) →
  f ∈ default [] (data_dir w) → i ∈ chunk_offsets (extracted_text f) →
  collection (exec load_files_to_db w) !! chunk_id (name f) i
  = Some (chunk_at (extracted_text f) i, Metadata (name f)).
Proof.
  intros Hnames Hf Hi. unfold exec. rewrite load_files_to_db_run.
  cbn [snd]. cbv zeta. cbn [collection].
  apply (apply_calls_lookup_NoDup _ _
           (UpsertCall (chunk_id (name f) i) (chunk_at (extracted_text f) i)
                       (Metadata (name f)))).
  - by apply dir_calls_ids_NoDup.
  - apply dir_calls_elem. eauto.
Qed.

(** * Further properties of the chunker *)

Lemma chunk_offsets_seq content :
  chunk_offsets content
  = (λ k, k * 650) <$> seq 0 (ceil_div (length content) 650).
Proof.
  apply list_eq. intros k. apply option_eq. intros i.
  rewrite chunk_offsets_lookup, list_lookup_fmap, fmap_Some.
  setoid_rewrite lookup_seq. split.
  - intros [-> Hi]. exists k. split_and!; [done| |done].
    apply ceil_div_gt; lia.
  - intros (k' & [-> Hk] & ->). simpl. split; [done|].
    apply ceil_div_gt in Hk; lia.
Qed.

Lemma concat_strides (content : list N) n k :
  concat ((λ j, take 650 (drop (j * 650) content)) <$> seq k n)
  = take (n * 650) (drop (k * 650) content).
Proof.
  revert k. induction n as [|n IH]; intros k; [done|].
  cbn [seq fmap list_fmap concat]. rewrite IH.
  replace (S k * 650) with (k * 650 + 650) by lia.
  rewrite <-drop_drop, take_take_drop. f_equal.
Qed.

Lemma chunk_at_head content i :
  take 650 (chunk_at content i) = take 650 (drop i content).
Proof.
  unfold chunk_at, slice, chunk_size. rewrite take_take. f_equal. lia.
Qed.

(** X1: the text can be put together again from its chunks: the first 650
    characters of every chunk, one after the other, are the text. *)
Theorem chunks_reassemble content :
  concat ((λ i, take (chunk_size - overlap) (chunk_at content i))
            <$> chunk_offsets content)
  = content.
Proof.
  rewrite chunk_offsets_seq, <-list_fmap_compose.
  unfold chunk_size, overlap. change (800 - 150) with 650.
  rewrite (list_fmap_ext _ (λ j, take 650 (drop (j * 650) content)) (seq 0 _));
    [|intros; apply chunk_at_head].
  rewrite concat_strides. rewrite drop_0. apply take_ge.
  destruct (decide (length content
                    ≤ ceil_div (length content) 650 * 650)); [done|].
  assert (ceil_div (length content) 650 < ceil_div (length content) 650);
    [|lia].
  apply ceil_div_gt; lia.
Qed.

(** X2: the overlap holds the same text in both chunks: what a chunk has
    after its first 650 characters is what the chunk taken 650 characters
    further on starts with. *)
Theorem overlap_text_shared content i :
  drop (chunk_size - overlap) (chunk_at content i)
  = take overlap (chunk_at content (i + (chunk_size - overlap))).
Proof.
  unfold chunk_at, slice, chunk_size, overlap.
  replace (i + 800 - i) with (650 + 150) by lia.
  replace (i + (800 - 150) + 800 - (i + (800 - 150))) with 800 by lia.
  change (800 - 150) with 650.
  rewrite <-take_drop_commute, drop_drop, take_take. f_equal.
Qed.

(** X3: only the last two chunks of a text can be shorter than 800
    characters: a chunk followed by two more is full, a chunk followed by
    one more has more than 650 characters, and no chunk is empty. *)
Theorem short_chunks_at_end content k i :
  chunk_offsets content !! k = Some i →
  chunk_at content i ≠ []
  ∧ (is_Some (chunk_offsets content !! S k) →
     chunk_size - overlap < length (chunk_at content i))
  ∧ (is_Some (chunk_offsets content !! S (S k)) →
     length (chunk_at content i) = chunk_size).
Proof.
  intros [-> Hi]%chunk_offsets_lookup.
  pose proof (chunk_at_length content (k * 650)) as Hlen.
  unfold chunk_size, overlap in *. split_and!.
  - intros Hnil. rewrite Hnil in Hlen. cbn [length] in Hlen. lia.
  - intros [j [-> Hj]%chunk_offsets_lookup]. lia.
  - intros [j [-> Hj]%chunk_offsets_lookup]. lia.
Qed.

Lemma short_chunks_at_end_witness :
  chunk_at text_2000 0 ≠ []
  ∧ chunk_size - overlap < length (chunk_at text_2000 0)
  ∧ length (chunk_at text_2000 0) = chunk_size.
Proof.
  destruct (short_chunks_at_end text_2000 0 0) as (Hne & Hlong & Hfull);
    [reflexivity|].
  split; [exact Hne|]. split.
  - apply Hlong. vm_compute. eauto.
  - apply Hfull. vm_compute. eauto.
Defined.

(** * Further properties of the synchroniser *)

Lemma chunk_at_nonempty content i :
  i < length content → chunk_at content i ≠ [].
Proof.
  intros Hi Hnil. pose proof (chunk_at_length content i) as Hlen.
  rewrite Hnil in Hlen. cbn [length] in Hlen. unfold chunk_size in Hlen. lia.
Qed.

Lemma file_calls_chunk_calls f :
  file_calls f = chunk_calls (name f) (extracted_text f).
Proof. unfold file_calls. by destruct (extracted_text f). Qed.

(** X4: the pass keeps the collection well formed: if every entry is a
    non-empty text of at most 800 characters stored under its source name
    followed by ["_part_"] and a multiple of 650, the same holds after
    the pass. *)
Theorem sync_keeps_chunk_entries w :
  map_Forall chunk_entry (collection w) →
  map_Forall chunk_entry (collection (exec load_files_to_db w)).
Proof.
  intros Hwf id e. unfold exec. rewrite load_files_to_db_run.
  cbn [snd]. cbv zeta. cbn [collection]. intros Hlookup.
  destruct (apply_calls_lookup (dir_calls (default [] (data_dir w)))
              (collection w) id) as [Hold|(call & Hcall & <- & Hnew)].
  - apply Hwf. by rewrite <-Hold.
  - rewrite Hlookup in Hnew. injection Hnew as ->.
    apply dir_calls_elem in Hcall as (f & i & _ & Hi & ->).
    apply chunk_offsets_elem in Hi as [[k ->] Hlt].
    unfold chunk_entry. cbn [fst snd call_id call_document call_metadata source].
    split_and!.
    + by exists k.
    + by apply chunk_at_nonempty.
    + rewrite chunk_at_length. lia.
Qed.

Lemma sync_keeps_chunk_entries_witness :
  map_Forall chunk_entry (collection (exec load_files_to_db stale_world)).
Proof.
  apply sync_keeps_chunk_entries. unfold stale_world. cbn [collection].
  apply map_Forall_insert_2; [|apply map_Forall_singleton].
  - split; [by exists 4|]. split; [discriminate | vm_compute; lia].
  - split; [by exists 0|]. split; [discriminate | vm_compute; lia].
Defined.

(** X5: when the data directory does not exist, the pass creates it,
    indexes nothing, reports no error and returns the success message. *)
Theorem sync_missing_directory w :
  data_dir w = None →
  run load_files_to_db w
  = (sync_status,
     World (Some []) (collection w) (upsert_log w) (sidebar_errors w)
           (messages w) (groq_log w)).
Proof.
  intros Hdir. unfold run. rewrite load_files_to_db_run, Hdir.
  cbv zeta. cbn [default]. unfold dir_calls.
  change ([] ≫= file_calls) with (@nil upsert_call).
  change ([] ≫= reported_errors) with (@nil (list N)).
  by rewrite !app_nil_r.
Qed.

Lemma sync_missing_directory_witness :
  run load_files_to_db bare_world
  = (sync_status,
     World (Some []) (collection bare_world) (upsert_log bare_world)
           (sidebar_errors bare_world) (messages bare_world)
           (groq_log bare_world)).
Proof. apply sync_missing_directory. reflexivity. Defined.

Lemma reported_errors_length f : length (reported_errors f) ≤ 1.
Proof.
  unfold reported_errors, extract_content.
  destruct (endswith (name f) (lit ".txt")).
  { destruct (read_text f); simpl; lia. }
  destruct (endswith (name f) (lit ".pdf")); [|simpl; lia].
  destruct (read_pdf f) as [pages|]; [|simpl; lia].
  destruct (pdf_pages_loop pages []) as [content [exn|]]; simpl; lia.
Qed.

Lemma bind_length_le {A B} (f : A → list B) (l : list A) n :
  (∀ x, length (f x) ≤ n) → length (l ≫= f) ≤ length l * n.
Proof.
  intros Hf. induction l as [|x l IH]; [done|].
  change ((x :: l) ≫= f) with (f x ++ (l ≫= f)).
  rewrite length_app. specialize (Hf x). simpl. lia.
Qed.

(** X6: a pass leaves the conversation and the requests to the completion
    service alone; it only adds to the sidebar errors, at most one per
    directory entry, and to the upsert calls; and it returns the success
    message whatever errors it reported. *)
Theorem sync_frame w :
  let w' := exec load_files_to_db w in
  messages w' = messages w
  ∧ groq_log w' = groq_log w
  ∧ data_dir w' = Some (default [] (data_dir w))
  ∧ upsert_log w `prefix_of` upsert_log w'
  ∧ (∃ errors,
       sidebar_errors w' = sidebar_errors w ++ errors
       ∧ length errors ≤ length (default [] (data_dir w)))
  ∧ (run load_files_to_db w).1 = sync_status.
Proof.
  cbv zeta. unfold exec, run. rewrite load_files_to_db_run.
  cbn [fst snd]. cbv zeta.
  cbn [messages groq_log data_dir upsert_log sidebar_errors].
  split_and!; try done.
  - by apply prefix_app_r.
  - eexists. split; [done|].
    pose proof (bind_length_le reported_errors (default [] (data_dir w)) 1
                  reported_errors_length). lia.
Qed.

(** ** How an entry is read *)

(** X7: an entry whose name ends neither in [.txt] nor in [.pdf] is passed
    over in silence: no error, no upsert, the world stays as it is. *)
Theorem other_extension_skipped f w :
  endswith (name f) (lit ".txt") = false →
  endswith (name f) (lit ".pdf") = false →
  reported_errors f = [] ∧ file_calls f = [] ∧ exec (sync_file f) w = w.
Proof.
  intros Htxt Hpdf.
  assert (Htext : extracted_text f = []).
  { unfold extracted_text, extract_content. by rewrite Htxt, Hpdf. }
  assert (Herrs : reported_errors f = []).
  { unfold reported_errors, extract_content. by rewrite Htxt, Hpdf. }
  assert (Hcalls : file_calls f = []).
  { unfold file_calls. by rewrite Htext. }
  split_and!; [done | done |].
  unfold exec. rewrite sync_file_run, Herrs, Hcalls. cbn [snd apply_calls foldl].
  rewrite !app_nil_r. by destruct w.
Qed.

Lemma other_extension_skipped_witness :
  reported_errors readme_md = [] ∧ file_calls readme_md = []
  ∧ exec (sync_file readme_md) stale_world = stale_world.
Proof. apply other_extension_skipped; reflexivity. Defined.

(** X8: a text file that can be read is indexed whole: its content is the
    extracted text, no error is reported, and the chunks of the content
    are upserted under the file's name, whatever the PDF library would
    make of the file. *)
Theorem txt_read_success f content :
  endswith (name f) (lit ".txt") = true → read_text f = Ok content →
  extracted_text f = content
  ∧ reported_errors f = []
  ∧ file_calls f = chunk_calls (name f) content.
Proof.
  intros Htxt Hread.
  assert (Htext : extracted_text f = content).
  { unfold extracted_text, extract_content. by rewrite Htxt, Hread. }
  split_and!; [done | |].
  - unfold reported_errors, extract_content. by rewrite Htxt, Hread.
  - by rewrite file_calls_chunk_calls, Htext.
Qed.

Lemma txt_read_success_witness :
  extracted_text memo_txt = lit "buy milk"
  ∧ reported_errors memo_txt = []
  ∧ file_calls memo_txt = chunk_calls (name memo_txt) (lit "buy milk").
Proof. apply txt_read_success; reflexivity. Defined.

Lemma pdf_pages_loop_app texts rest content :
  pdf_pages_loop ((Ok <$> texts) ++ rest) content
  = pdf_pages_loop rest
      (content ++ concat ((λ t, t ++ nl) <$> filter (λ t : list N, t ≠ []) texts)).
Proof.
  revert content. induction texts as [|t texts IH]; intros content.
  - simpl. by rewrite app_nil_r.
  - cbn [fmap list_fmap app pdf_pages_loop]. rewrite IH.
    destruct t as [|c t].
    + rewrite filter_cons_False by (intros H; by apply H). done.
    + rewrite filter_cons_True by done. cbn [truthy fmap list_fmap concat].
      by rewrite <-!app_assoc.
Qed.

(** X9: the text of a PDF whose pages can all be read is the text of its
    pages in order, each followed by a newline, without the pages that
    yield no text; no error is reported. *)
Theorem pdf_text_of_pages f texts :
  endswith (name f) (lit ".txt") = false →
  endswith (name f) (lit ".pdf") = true →
  read_pdf f = Ok (Ok <$> texts) →
  extracted_text f
  = concat ((λ t, t ++ nl) <$> filter (λ t : list N, t ≠ []) texts)
  ∧ reported_errors f = [].
Proof.
  intros Htxt Hpdf Hread.
  unfold extracted_text, reported_errors, extract_content.
  rewrite Htxt, Hpdf, Hread.
  rewrite <-(app_nil_r (Ok <$> texts)), pdf_pages_loop_app. done.
Qed.

Lemma pdf_text_of_pages_witness :
  extracted_text scenario_pdf
  = concat ((λ t, t ++ nl)
              <$> filter (λ t : list N, t ≠ [])
                         [replicate 500 98%N; replicate 500 99%N])
  ∧ reported_errors scenario_pdf = [].
Proof. apply pdf_text_of_pages; reflexivity. Defined.

(** X10: when the extraction of a page raises, the text of the PDF is the
    text of the pages before it, the pages after it are not read, and
    exactly one error, naming the file and the exception, is reported. *)
Theorem pdf_text_until_failure f texts e rest :
  endswith (name f) (lit ".txt") = false →
  endswith (name f) (lit ".pdf") = true →
  read_pdf f = Ok ((Ok <$> texts) ++ Raise e :: rest) →
  extracted_text f
  = concat ((λ t, t ++ nl) <$> filter (λ t : list N, t ≠ []) texts)
  ∧ reported_errors f = [name f ++ lit " PDF 읽기 실패: " ++ e].
Proof.
  intros Htxt Hpdf Hread.
  unfold extracted_text, reported_errors, extract_content.
  rewrite Htxt, Hpdf, Hread, pdf_pages_loop_app. done.
Qed.

Lemma pdf_text_until_failure_witness :
  extracted_text torn_pdf
  = concat ((λ t, t ++ nl) <$> filter (λ t : list N, t ≠ []) [lit "abc"])
  ∧ reported_errors torn_pdf
    = [name torn_pdf ++ lit " PDF 읽기 실패: " ++ lit "broken page"].
Proof. apply (pdf_text_until_failure torn_pdf [lit "abc"] _ []); reflexivity. Defined.

Lemma txt_read_failure_witness :
  reported_errors broken_txt
  = [name broken_txt ++ lit " 읽기 실패: " ++ lit "Permission denied"]
  ∧ file_calls broken_txt = [].
Proof. apply txt_read_failure; reflexivity. Defined.

Lemma pdf_open_failure_witness :
  reported_errors locked_pdf
  = [name locked_pdf ++ lit " PDF 읽기 실패: "
     ++ lit "file has not been decrypted"]
  ∧ file_calls locked_pdf = [].
Proof. apply pdf_open_failure; reflexivity. Defined.

(** ** The collection after a pass *)

Lemma every_chunk_stored_witness :
  collection (exec load_files_to_db stale_world)
    !! chunk_id (name notes_txt) 1300
  = Some (chunk_at (extracted_text notes_txt) 1300, Metadata (name notes_txt)).
Proof.
  apply every_chunk_stored.
  - apply (bool_decide_unpack _). vm_compute. exact I.
  - apply list_elem_of_here.
  - apply (bool_decide_unpack _). vm_compute. exact I.
Defined.

Lemma resync_order_irrelevant_witness :
  collection (exec load_files_to_db
                (with_listing [notes_txt; memo_txt]
                              (exec load_files_to_db fresh_world)))
  = collection (exec load_files_to_db fresh_world).
Proof.
  apply resync_order_irrelevant.
  - apply (bool_decide_unpack _). vm_compute. exact I.
  - apply Permutation_swap.
Defined.

Lemma file_calls_length f :
  length (file_calls f) = ceil_div (length (extracted_text f)) 650.
Proof.
  rewrite file_calls_chunk_calls. unfold chunk_calls.
  by rewrite length_fmap, chunk_offsets_length.
Qed.

Lemma dir_calls_length entries :
  length (dir_calls entries)
  = sum_list ((λ f, ceil_div (length (extracted_text f)) 650) <$> entries).
Proof.
  induction entries as [|f entries IH]; [done|].
  change (dir_calls (f :: entries)) with (file_calls f ++ dir_calls entries).
  rewrite length_app, file_calls_length, IH. done.
Qed.

Lemma apply_calls_size_le calls c :
  size (apply_calls calls c) ≤ size c + length calls.
Proof.
  induction calls as [|call calls IH] using rev_ind; [simpl; lia|].
  rewrite apply_calls_snoc, length_app, map_size_insert. simpl.
  destruct (apply_calls calls c !! call_id call); unfold id; lia.
Qed.

Lemma apply_calls_size_fresh calls :
  NoDup (call_id <$> calls) → size (apply_calls calls ∅) = length calls.
Proof.
  induction calls as [|call calls IH] using rev_ind; [done|].
  rewrite fmap_app, NoDup_app. intros (Hnd & Hfresh & _).
  rewrite apply_calls_snoc, length_app, map_size_insert_None.
  - rewrite IH by done. simpl. lia.
  - rewrite apply_calls_frame; [done|].
    intros Hin. apply (Hfresh _ Hin). simpl. by left.
Qed.

(** X15: a pass adds at most [ceil(L / 650)] entries per listed file,
    [L] being the length of the file's extracted text; on an empty
    collection and with distinct file names it adds exactly that many. *)
Theorem collection_size_after_sync w :
  let entries := default [] (data_dir w) in
  let chunks :=
    sum_list ((λ f, ceil_div (length (extracted_text f))
                             (chunk_size - overlap)) <$> entries) in
  size (collection (exec load_files_to_db w)) ≤ size (collection w) + chunks
  ∧ (collection w = ∅ → NoDup (name <$> entries) →
     size (collection (exec load_files_to_db w)) = chunks).
Proof.
  cbv zeta. unfold exec. rewrite load_files_to_db_run.
  cbn [snd]. cbv zeta. cbn [collection].
  unfold chunk_size, overlap. change (800 - 150) with 650.
  rewrite <-dir_calls_length. split.
  - apply apply_calls_size_le.
  - intros -> Hnames. apply apply_calls_size_fresh.
    by apply dir_calls_ids_NoDup.
Qed.

Lemma collection_size_after_sync_witness :
  size (collection (exec load_files_to_db fresh_world))
  = sum_list ((λ f, ceil_div (length (extracted_text f))
                             (chunk_size - overlap))
                <$> default [] (data_dir fresh_world)).
Proof.
  apply collection_size_after_sync.
  - reflexivity.
  - apply (bool_decide_unpack _). vm_compute. exact I.
Defined.

(** * Further properties of the chat handler *)



Lemma bracket_literal : lit "[" = [91%N].
Proof. by vm_compute. Qed.

(** X17: the context text is empty exactly when no (text, metadata) pair
    was retrieved; otherwise it starts with the opening bracket of the
    first block. *)
Theorem context_empty_iff contexts metadatas :
  ((build_context contexts metadatas).1 = []
   ↔ contexts = [] ∨ metadatas = [])
  ∧ (contexts ≠ [] → metadatas ≠ [] →
     take 1 (build_context contexts metadatas).1 = lit "[").
Proof.
  unfold build_context. cbn [fst].
  destruct contexts as [|doc contexts]; [split; [tauto | done]|].
  destruct metadatas as [|meta metadatas]; [split; [tauto | done]|].
  cbn [zip zip_with fmap list_fmap fst snd].
  assert (Hhead : ∀ rest,
            take 1 (join (nl ++ nl) (format_context doc meta :: rest))
            = [91%N]).
  { intros [|block rest]; cbn [join]; unfold format_context;
      by rewrite bracket_literal. }
  split.
  - split; [|intros [?|?]; done].
    intros Hnil. specialize (Hhead ((λ dm, format_context dm.1 dm.2)
                                      <$> zip contexts metadatas)).
    by rewrite Hnil in Hhead.
  - intros _ _. rewrite bracket_literal. apply Hhead.
Qed.

Lemma context_empty_iff_witness :
  take 1 (build_context [lit "x"; lit "y"; lit "z"] sample_metadatas).1
  = lit "[".
Proof.
  apply (context_empty_iff [lit "x"; lit "y"; lit "z"] sample_metadatas);
    discriminate.
Defined.

(** X18: there are never more cited sources than retrieved results. *)
Theorem sources_at_most_results contexts metadatas :
  length (build_context contexts metadatas).2 ≤ length metadatas.
Proof.
  rewrite <-(length_fmap source metadatas).
  apply submseteq_length, NoDup_submseteq; [apply sources_NoDup|].
  intros s. by rewrite sources_spec.
Qed.

(** X19: the prompt is a fixed text with two holes: after the decline
    instruction comes the context text, and after that the question, both
    word for word; nothing else of the prompt depends on them. *)
Theorem prompt_template :
  ∃ head middle1 middle2 tail,
    ∀ context_text query,
      build_prompt context_text query
      = head ++ decline_instruction ++ middle1 ++ context_text
        ++ middle2 ++ query ++ tail
      ∧ length (build_prompt context_text query)
        = length head + length decline_instruction + length middle1
          + length middle2 + length tail
          + length context_text + length query.
Proof.
  pose (head := join nl [
     [];
     indent ++ lit "너는 전문 지식 비서야. [참고 문헌]을 바탕으로 질문에 답해줘.";
     indent ++ lit "IT 지식을 모두 활용하고, 반드시 출처를 밝혀줘.";
     indent ++ lit "그리고 너의 의견으로 하지말고 반드시 data폴더 안의 txt, pdf 파일 기반으로 답변을 해줘";
     indent ++ lit "그리고 반드시 출처를 밝혀줘 어떤 txt, pdf 파일을 참고했는지를 말해줘";
     indent ++ lit "답변에는 한자가 나오지 않도록 해주십시오.";
     [];
     indent ++ lit "[지시 사항]:";
     indent ++ lit "1. 너의 주관적인 의견은 배제하고, 반드시 제공된 [참고 문헌]의 내용을 기반으로 답변해.";
     indent ++ lit "2. 답변 과정에서 어떤 파일(txt, pdf)을 참고했는지 명확히 언급해.";
     indent ]).
  exists head,
         (nl ++ nl ++ indent ++ lit "[참고 문헌]:" ++ nl ++ indent),
         (nl ++ nl ++ indent ++ lit "[질문]: "),
         (nl ++ nl ++ indent ++ lit "답변:" ++ nl ++ indent).
  intros context_text query.
  assert (Heq : build_prompt context_text query
    = head ++ decline_instruction
      ++ (nl ++ nl ++ indent ++ lit "[참고 문헌]:" ++ nl ++ indent)
      ++ context_text
      ++ (nl ++ nl ++ indent ++ lit "[질문]: ")
      ++ query ++ (nl ++ nl ++ indent ++ lit "답변:" ++ nl ++ indent)).
  { unfold build_prompt, head. cbn [join]. rewrite <-!app_assoc.
    reflexivity. }
  split; [exact Heq|]. rewrite Heq, !length_app. lia.
Qed.

(** ** From the directory to the citations *)

Lemma stored_lookup (c : gmap (list N) (list N * metadata)) meta :
  meta ∈ (stored c).*2 → ∃ id doc, c !! id = Some (doc, meta).
Proof.
  unfold stored. intros (e & -> & Hin)%list_elem_of_fmap.
  apply list_elem_of_fmap in Hin as ([id e'] & -> & Hin).
  apply elem_of_map_to_list in Hin. destruct e' as [doc meta]. eauto.
Qed.

(** X20: after a pass on an empty collection, if the index search returns
    metadata of stored entries only, every source cited for a question is
    the name of a listed file from which text was extracted. *)
Theorem citations_name_listed_files (w : world)
    (search : gmap (list N) (list N * metadata) → list N → nat
              → list (list N) * list metadata) (query : list N) :
  let w' := exec load_files_to_db w in
  let results := search (collection w') query 3 in
  collection w = ∅ →
  Forall (λ meta, meta ∈ (stored (collection w')).*2) results.2 →
  Forall (λ s, ∃ f, f ∈ default [] (data_dir w) ∧ name f = s
                    ∧ extracted_text f ≠ [])
         (build_context results.1 results.2).2.
Proof.
  cbv zeta. intros Hempty Hsound. apply Forall_forall. intros s Hs.
  apply sources_spec, list_elem_of_fmap in Hs as (meta & -> & Hmeta).
  rewrite Forall_forall in Hsound.
  apply Hsound, stored_lookup in Hmeta as (id & doc & Hlookup).
  unfold exec in Hlookup. rewrite load_files_to_db_run in Hlookup.
  cbn [snd] in Hlookup. cbv zeta in Hlookup. cbn [collection] in Hlookup.
  rewrite Hempty in Hlookup.
  destruct (apply_calls_lookup (dir_calls (default [] (data_dir w))) ∅ id)
    as [Hold|(call & Hcall & _ & Hnew)].
  - by rewrite Hold, lookup_empty in Hlookup.
  - rewrite Hlookup in Hnew. injection Hnew as -> ->.
    apply dir_calls_elem in Hcall as (f & i & Hf & Hi & ->).
    exists f. split_and!; [done | done |].
    apply chunk_offsets_elem in Hi as [_ Hi]. intros Hnil.
    rewrite Hnil in Hi. simpl in Hi. lia.
Qed.

Lemma citations_name_listed_files_witness :
  Forall (λ s, ∃ f, f ∈ default [] (data_dir fresh_world) ∧ name f = s
                    ∧ extracted_text f ≠ [])
         (build_context
            (search_first (collection (exec load_files_to_db fresh_world))
                          (lit "milk") 3).1
            (search_first (collection (exec load_files_to_db fresh_world))
                          (lit "milk") 3).2).2.
Proof.
  apply (citations_name_listed_files fresh_world search_first (lit "milk")).
  - reflexivity.
  - apply (bool_decide_unpack _). vm_compute. exact I.
Defined.

(** * The script as a whole *)

Lemma chat_handler_run search llm query w :
  truthy query = true →
  let results := search (collection w) query 3 in
  let context := build_context results.1 results.2 in
  let req := Request [(User, build_prompt context.1 query)]
                     groq_model groq_temperature in
  let answer := llm req ++ source_links context.2 in
  chat_handler search llm (Some query) w
  = ([(User, query); (Assistant, answer)],
     World (data_dir w) (collection w) (upsert_log w) (sidebar_errors w)
           (messages w ++ [(User, query); (Assistant, answer)])
           (groq_log w ++ [req])).
Proof.
  intros Hquery. cbv zeta. unfold chat_handler. rewrite Hquery.
  cbv [mbind M_bind mret M_ret append_message query_collection complete].
  destruct (build_context _ _) as [context_text sources].
  cbn [fst snd data_dir collection upsert_log sidebar_errors messages groq_log].
  by rewrite <-app_assoc.
Qed.

Lemma chat_handler_world search llm query w :
  (chat_handler search llm (Some query) w).2
  = (chat_turn search llm query w).2.
Proof.
  destruct (truthy query) eqn:Hquery.
  - by rewrite chat_handler_run, chat_turn_run.
  - unfold chat_handler, chat_turn. by rewrite Hquery.
Qed.

(** X21: what a run of the script does to the world is the
    synchronisation, if the button was clicked, followed by the chat turn,
    if a question was submitted: the question is answered from the
    collection as the click of the same run left it.  The sidebar shows
    the success message exactly when the button was clicked. *)
Theorem script_run_composes search llm (clicked : bool) chat_input w :
  let synced := if clicked then exec load_files_to_db w else w in
  exec (script_run search llm clicked chat_input) w
  = match chat_input with
    | Some query => exec (chat_turn search llm query) synced
    | None => synced
    end
  ∧ sidebar_success (run (script_run search llm clicked chat_input) w).1
    = if clicked then Some sync_status else None.
Proof.
  cbv zeta. unfold exec, run, script_run, sync_button, render_history.
  destruct clicked.
  - cbv [mbind M_bind mret M_ret]. rewrite load_files_to_db_run.
    destruct chat_input as [query|].
    + rewrite <-chat_handler_world.
      by destruct (chat_handler search llm (Some query) _).
    + done.
  - cbv [mbind M_bind mret M_ret].
    destruct chat_input as [query|].
    + rewrite <-chat_handler_world.
      by destruct (chat_handler search llm (Some query) _).
    + done.
Qed.

(** X22: the chat messages a run draws are the conversation as it is
    stored when the run ends, and the stored conversation only grows: it
    keeps what it held before the run as a prefix. *)
Theorem page_shows_stored_conversation search llm (clicked : bool) chat_input w :
  chat_view (run (script_run search llm clicked chat_input) w).1
  = messages (exec (script_run search llm clicked chat_input) w)
  ∧ messages w
    `prefix_of` messages (exec (script_run search llm clicked chat_input) w).
Proof.
  unfold exec, run, script_run, sync_button, render_history.
  assert (Hchat : ∀ w1, messages w1 = messages w →
    let r := chat_handler search llm chat_input w1 in
    messages w1 ++ r.1 = messages r.2 ∧ messages w `prefix_of` messages r.2).
  { intros w1 Hw1. cbv zeta. destruct chat_input as [query|].
    - destruct (truthy query) eqn:Hquery.
      + rewrite chat_handler_run by done. cbn [fst snd messages].
        split; [done|]. rewrite Hw1. by apply prefix_app_r.
      + unfold chat_handler. rewrite Hquery. cbn. rewrite app_nil_r, Hw1.
        done.
    - cbn. by rewrite app_nil_r, Hw1. }
  destruct clicked.
  - cbv [mbind M_bind mret M_ret]. rewrite load_files_to_db_run.
    cbv zeta.
    match goal with
    | |- context [chat_handler search llm chat_input ?w1] =>
      specialize (Hchat w1 eq_refl);
      destruct (chat_handler search llm chat_input w1) as [shown w2]
    end.
    exact Hchat.
  - cbv [mbind M_bind mret M_ret].
    specialize (Hchat w eq_refl).
    destruct (chat_handler search llm chat_input w) as [shown w2].
    exact Hchat.
Qed.
